(** * Blogging platform: comment threading and filter/query state

    A shallow embedding of the two pieces of client logic that carry the
    behaviour of the application:

    - [organizeComments] (components/CommentSection.tsx), which turns the
      flat comment list of a blog into a forest of replies by mutating
      freshly allocated copies held in a [Map];
    - the filter handlers of the blog-list view ([applyFilters],
      [handlePageChange], [handleCategoryToggle]) and of the keyword-search
      view ([handleSearch], [handleCategoryToggle], [clearSearch]).

    JavaScript objects live in an explicit heap so that aliasing and in-place
    mutation are visible; React state is a record and every handler is a
    transition on it. *)

From stdpp Require Import base option list gmap strings fin_maps sorting.
From Stdlib Require Import ZArith Lia.
From Stdlib Require QArith.

Open Scope string_scope.
Open Scope list_scope.
Open Scope Z_scope.
Open Scope nat_scope.

(** ** JavaScript truthiness

    [if (x)], [x || d] and [c ? a : b] test truthiness: [undefined], the
    empty string and the number [0] are falsy. *)

Definition truthy_string (o : option string) : bool :=
  match o with
  | Some s => negb (String.eqb s "")
  | None => false
  end.

Definition truthy_number (o : option Z) : bool :=
  match o with
  | Some n => negb (Z.eqb n 0)
  | None => false
  end.

(** ** Data model (the shared type declarations) *)

Module Types.

Inductive Role := RoleUser | RoleAdmin.

Record User := mkUser {
  user_id : string;
  email : string;
  username : string;
  fullName : string;
  avatar : option string;
  role : Role;
  bio : option string;
  user_createdAt : Z;
  user_updatedAt : Z
}.

(** Heap addresses of comment objects. *)
Abbreviation loc := nat.

(** A comment object.  [replies] holds references to other comment objects;
    dates are abstracted to their time value. *)
Record Comment := mkComment {
  id : string;
  content : string;
  blogId : string;
  authorId : string;
  author : option User;
  parentId : option string;
  replies : option (list loc);
  createdAt : Z;
  updatedAt : Z
}.

(** [{ ...comment, replies: r }] *)
Definition with_replies (c : Comment) (r : option (list loc)) : Comment :=
  {| id := id c; content := content c; blogId := blogId c;
     authorId := authorId c; author := author c; parentId := parentId c;
     replies := r; createdAt := createdAt c; updatedAt := updatedAt c |}.

Inductive BlogStatus := Draft | Published | Archived.

(** [sortBy] and [sortOrder] are string unions in the declaration, but the
    views store arbitrary strings into them through [as any] casts (URL
    parameters, the split value of the sort dropdown), so they are strings
    here. *)
Record BlogFilters := mkBlogFilters {
  search : option string;
  categories : option (list string);
  tags : option (list string);
  filter_author : option string;
  status : option BlogStatus;
  sortBy : option string;
  sortOrder : option string;
  limit : option Z;
  offset : option Z
}.

(** [Partial<BlogFilters>] as an object literal: a key is either missing
    ([None]) or present with a value that may itself be [undefined]
    ([Some None]).  Object spread copies present keys, also when their value
    is [undefined]. *)
Record PartialFilters := mkPartial {
  p_search : option (option string);
  p_categories : option (option (list string));
  p_tags : option (option (list string));
  p_author : option (option string);
  p_status : option (option BlogStatus);
  p_sortBy : option (option string);
  p_sortOrder : option (option string);
  p_limit : option (option Z);
  p_offset : option (option Z)
}.

#[global] Instance Role_eq_dec : EqDecision Role.
Proof. solve_decision. Defined.

#[global] Instance User_eq_dec : EqDecision User.
Proof. solve_decision. Defined.

#[global] Instance Comment_eq_dec : EqDecision Comment.
Proof. solve_decision. Defined.

#[global] Instance BlogStatus_eq_dec : EqDecision BlogStatus.
Proof. solve_decision. Defined.

#[global] Instance BlogFilters_eq_dec : EqDecision BlogFilters.
Proof. solve_decision. Defined.

End Types.
Export Types.

(** ** The heap *)

Abbreviation heap := (list Comment).

(** Allocation appends a new object; its address is the old heap size. *)
Definition alloc (h : heap) (c : Comment) : heap * loc := (h ++ [c], length h).

(** A left fold whose body may fail: [Array.prototype.forEach] with a
    callback that threads the mutable state. *)
Fixpoint forEach {S A : Type} (f : S → A → option S) (xs : list A) (s : S)
  : option S :=
  match xs with
  | [] => Some s
  | x :: xs' => s' ← f s x; forEach f xs' s'
  end.

(** ** organizeComments (CommentSection.tsx) *)

Module CommentSection.

(** First pass:
    [commentMap.set(comment.id, { ...comment, replies: [] })].
    Reading a field through a dangling reference is the only failure. *)
Definition firstPass (st : heap * gmap string loc) (lc : loc)
  : option (heap * gmap string loc) :=
  let '(h, commentMap) := st in
  comment ← h !! lc;
  let '(h', l) := alloc h (with_replies comment (Some [])) in
  Some (h', <[id comment := l]> commentMap).

(** [parent.replies = parent.replies || []; parent.replies.push(x)] on the
    object at [lp].  An array is truthy even when empty. *)
Definition push_reply (h : heap) (lp : loc) (x : loc) : option heap :=
  parent ← h !! lp;
  let arr := default [] (replies parent) in
  Some (<[lp := with_replies parent (Some (arr ++ [x]))]> h).

(** Second pass.  The non-null assertion in
    [commentMap.get(comment.id)!] is a failure point of the model: the
    result is [None] when the lookup has no entry. *)
Definition secondPass (commentMap : gmap string loc)
    (st : heap * list loc) (lc : loc) : option (heap * list loc) :=
  let '(h, rootComments) := st in
  comment ← h !! lc;
  commentWithReplies ← commentMap !! id comment;
  if truthy_string (parentId comment) then
    match parentId comment ≫= (commentMap !!.) with
    | Some parent =>
        h' ← push_reply h parent commentWithReplies;
        Some (h', rootComments)
    | None => Some (h, rootComments)
    end
  else Some (h, rootComments ++ [commentWithReplies]).

(** [allComments] is the array of references handed to the component; the
    result is the final heap and the array [rootComments]. *)
Definition organizeComments (h : heap) (allComments : list loc)
  : option (heap * list loc) :=
  '(h1, commentMap) ← forEach firstPass allComments (h, ∅);
  forEach (secondPass commentMap) allComments (h1, []).

(** Depth-first traversal of a forest of heap objects, the order in which
    [CommentItem] renders [comment.replies?.map(...)].  [fuel] bounds the
    nesting depth; running out of it yields [None]. *)
Fixpoint flatten (fuel : nat) (h : heap) (ls : list loc) : option (list loc) :=
  match fuel with
  | O => match ls with [] => Some [] | _ => None end
  | S fuel' =>
      @concat loc <$> mapM (λ l,
        c ← h !! l;
        (l ::.) <$> flatten fuel' h (default [] (replies c))) ls
  end.

End CommentSection.
Export CommentSection.


(** ** Filter and query state *)

(** [URLSearchParams] as the ordered list of its pairs. *)
Module URLSearchParams.

Abbreviation t := (list (string * string)).

Definition empty : t := [].

(** [params.set(name, value)]: the first pair with this name takes the
    value and the others with this name are removed; without such a pair
    one is appended. *)
Fixpoint set (name value : string) (ps : t) : t :=
  match ps with
  | [] => [(name, value)]
  | (n, v) :: ps' =>
      if String.eqb n name
      then (name, value) :: filter (λ p, p.1 ≠ name) ps'
      else (n, v) :: set name value ps'
  end.

(** [params.get(name)]: the first value with this name, or [null]. *)
Fixpoint get (name : string) (ps : t) : option string :=
  match ps with
  | [] => None
  | (n, v) :: ps' => if String.eqb n name then Some v else get name ps'
  end.

End URLSearchParams.

(** [{ ...filters, ...newFilters }] for one key. *)
Definition spread {A} (old : option A) (new : option (option A)) : option A :=
  match new with
  | Some v => v
  | None => old
  end.

(** [{ ...filters, ...newFilters, offset: o }] *)
Definition spread_filters (filters : BlogFilters) (newFilters : PartialFilters)
    (o : option Z) : BlogFilters :=
  {| search := spread (search filters) (p_search newFilters);
     categories := spread (categories filters) (p_categories newFilters);
     tags := spread (tags filters) (p_tags newFilters);
     filter_author := spread (filter_author filters) (p_author newFilters);
     status := spread (status filters) (p_status newFilters);
     sortBy := spread (sortBy filters) (p_sortBy newFilters);
     sortOrder := spread (sortOrder filters) (p_sortOrder newFilters);
     limit := spread (limit filters) (p_limit newFilters);
     offset := o |}.

(** [{ ...filters, offset: o }] *)
Definition with_offset (filters : BlogFilters) (o : option Z) : BlogFilters :=
  {| search := search filters; categories := categories filters;
     tags := tags filters; filter_author := filter_author filters;
     status := status filters; sortBy := sortBy filters;
     sortOrder := sortOrder filters; limit := limit filters; offset := o |}.

(** [{ ...filters, limit: l }] *)
Definition with_limit (filters : BlogFilters) (l : option Z) : BlogFilters :=
  {| search := search filters; categories := categories filters;
     tags := tags filters; filter_author := filter_author filters;
     status := status filters; sortBy := sortBy filters;
     sortOrder := sortOrder filters; limit := l; offset := offset filters |}.

(** The object literal with no key. *)
Definition no_update : PartialFilters :=
  mkPartial None None None None None None None None None.

(** [array.includes(x)] and [array.filter((c) => c !== x)] on strings. *)
Definition includes (xs : list string) (x : string) : bool :=
  existsb (String.eqb x) xs.

Definition without (xs : list string) (x : string) : list string :=
  List.filter (λ c, negb (String.eqb c x)) xs.

(** [s || undefined] *)
Definition or_undefined (s : string) : option string :=
  if truthy_string (Some s) then Some s else None.

(** [searchParams.get(name) || d] *)
Definition get_or (ps : URLSearchParams.t) (name d : string) : string :=
  default d (URLSearchParams.get name ps ≫= or_undefined).

(** [xs.length > 0 ? xs : undefined] *)
Definition nonempty_or_undefined (xs : list string) : option (list string) :=
  match xs with
  | [] => None
  | _ => Some xs
  end.

(** The integers that a number of the language holds exactly: those of
    magnitude at most [2^53].  Sums, differences and products of such
    integers are computed exactly whenever the result is again one. *)
Definition exact_integer (z : Z) : Prop := (- 2 ^ 53 ≤ z ≤ 2 ^ 53)%Z.

(** The filter state held by the blog context provider. *)
Module BlogContext.

Definition initialFilters : BlogFilters :=
  mkBlogFilters None None None None None
    (Some "createdAt") (Some "desc") (Some 10%Z) (Some 0%Z).

(** [clearFilters()] *)
Definition clearFilters : BlogFilters := initialFilters.

End BlogContext.

(** The blog-list view (the [BlogList] component). *)
Module BlogList.

(** The state the handlers read and write: [filters] of the blog context,
    the URL parameters, and the local state of the component. *)
Record State := mkState {
  filters : BlogFilters;
  searchParams : URLSearchParams.t;
  localSearch : string;
  selectedCategories : list string
}.

(** The mount effect: filters are initialised from the URL parameters. *)
Definition mount (st : State) : State :=
  let urlSearch := get_or (searchParams st) "search" "" in
  let urlCategory := get_or (searchParams st) "category" "" in
  let urlSort := get_or (searchParams st) "sort" "createdAt" in
  let urlOrder := get_or (searchParams st) "order" "desc" in
  {| filters :=
       mkBlogFilters (or_undefined urlSearch)
         (if truthy_string (Some urlCategory) then Some [urlCategory] else None)
         None None (Some Published) (Some urlSort) (Some urlOrder)
         (Some 12%Z) (Some 0%Z);
     searchParams := searchParams st;
     localSearch := urlSearch;
     selectedCategories :=
       if truthy_string (Some urlCategory) then [urlCategory]
       else selectedCategories st |}.

(** The URL parameters derived from a filter object. *)
Definition deriveSearchParams (updatedFilters : BlogFilters)
  : URLSearchParams.t :=
  let ps := URLSearchParams.empty in
  let ps :=
    if truthy_string (search updatedFilters)
    then URLSearchParams.set "search" (default "" (search updatedFilters)) ps
    else ps in
  let ps :=
    match categories updatedFilters with
    | Some (c :: _) => URLSearchParams.set "category" c ps
    | _ => ps
    end in
  let ps :=
    if truthy_string (sortBy updatedFilters)
    then URLSearchParams.set "sort" (default "" (sortBy updatedFilters)) ps
    else ps in
  if truthy_string (sortOrder updatedFilters)
  then URLSearchParams.set "order" (default "" (sortOrder updatedFilters)) ps
  else ps.

Definition applyFilters (st : State) (newFilters : PartialFilters) : State :=
  let updatedFilters := spread_filters (filters st) newFilters (Some 0%Z) in
  {| filters := updatedFilters;
     searchParams := deriveSearchParams updatedFilters;
     localSearch := localSearch st;
     selectedCategories := selectedCategories st |}.

Definition handleSearchSubmit (st : State) : State :=
  applyFilters st
    (mkPartial (Some (Some (localSearch st)))
       None None None None None None None None).

Definition handleCategoryToggle (st : State) (categorySlug : string) : State :=
  let newSelected :=
    if includes (selectedCategories st) categorySlug
    then without (selectedCategories st) categorySlug
    else selectedCategories st ++ [categorySlug] in
  let st' := applyFilters st
    (mkPartial None (Some (nonempty_or_undefined newSelected))
       None None None None None None None) in
  {| filters := filters st'; searchParams := searchParams st';
     localSearch := localSearch st'; selectedCategories := newSelected |}.

(** [filters.limit || 12] *)
Definition limit_or_default (f : BlogFilters) : Z :=
  if truthy_number (limit f) then default 0%Z (limit f) else 12%Z.

(** [const newOffset = (page - 1) * (filters.limit || 12);
     setFilters({ ...filters, offset: newOffset })].
    Numbers are integers here: [-] and [*] are those of the language as
    long as the operands and the results are integers that its numbers hold
    exactly ([exact_integer]). *)
Definition handlePageChange (st : State) (page : Z) : State :=
  let newOffset := ((page - 1) * limit_or_default (filters st))%Z in
  {| filters := with_offset (filters st) (Some newOffset);
     searchParams := searchParams st;
     localSearch := localSearch st;
     selectedCategories := selectedCategories st |}.

Definition clearAllFilters (st : State) : State :=
  {| filters := BlogContext.clearFilters;
     searchParams := URLSearchParams.empty;
     localSearch := "";
     selectedCategories := [] |}.

(** Modelled from the spec: the page number derived for display from a
    filter object, [offset / limit + 1] over its [offset] and [limit]
    fields.  The division is that of the rationals, which is the division
    of the language wherever the quotient is a number it holds exactly; an
    unset field or a limit of [0] gives no number. *)
Definition displayPage (f : BlogFilters) : option QArith_base.Q :=
  match offset f, limit f with
  | Some o, Some l =>
      if (l =? 0)%Z then None
      else Some (QArith_base.Qplus
                   (QArith_base.Qdiv (QArith_base.inject_Z o)
                      (QArith_base.inject_Z l))
                   (QArith_base.inject_Z 1))
  | _, _ => None
  end.

End BlogList.

(** The keyword-search view (the [Search] component). *)
Module Search.

Record State := mkState {
  filters : BlogFilters;
  searchParams : URLSearchParams.t;
  searchQuery : string;
  selectedCategories : list string;
  searchSubmitted : bool
}.

(** The state of a freshly rendered view, before the mount effect. *)
Definition init (ctx : BlogFilters) (url : URLSearchParams.t) : State :=
  mkState ctx url "" [] false.

Definition handleSearch (st : State) (query : string)
    (categoryFilters : list string) : State :=
  let searchFilters :=
    mkBlogFilters (or_undefined query)
      (nonempty_or_undefined categoryFilters)
      None None (Some Published) (Some "createdAt") (Some "desc")
      (Some 20%Z) None in
  let ps := URLSearchParams.empty in
  let ps := if truthy_string (Some query)
            then URLSearchParams.set "q" query ps else ps in
  let ps := match categoryFilters with
            | c :: _ => URLSearchParams.set "category" c ps
            | [] => ps
            end in
  {| filters := searchFilters;
     searchParams := ps;
     searchQuery := searchQuery st;
     selectedCategories := selectedCategories st;
     searchSubmitted := true |}.

Definition setSearchQuery (st : State) (q : string) : State :=
  {| filters := filters st; searchParams := searchParams st;
     searchQuery := q; selectedCategories := selectedCategories st;
     searchSubmitted := searchSubmitted st |}.

(** The mount effect. *)
Definition mount (st : State) : State :=
  let urlQuery := get_or (searchParams st) "q" "" in
  let urlCategory := get_or (searchParams st) "category" "" in
  if truthy_string (Some urlQuery)
  then setSearchQuery
         (handleSearch st urlQuery
            (if truthy_string (Some urlCategory) then [urlCategory] else []))
         urlQuery
  else st.

Definition handleSearchSubmit (st : State) : State :=
  handleSearch st (searchQuery st) (selectedCategories st).

Definition handleCategoryToggle (st : State) (categorySlug : string) : State :=
  let newSelected :=
    if includes (selectedCategories st) categorySlug
    then without (selectedCategories st) categorySlug
    else [categorySlug] in
  let st' := handleSearch st (searchQuery st) newSelected in
  {| filters := filters st'; searchParams := searchParams st';
     searchQuery := searchQuery st'; selectedCategories := newSelected;
     searchSubmitted := searchSubmitted st' |}.

Definition clearSearch (st : State) : State :=
  {| filters :=
       mkBlogFilters None None None None (Some Published)
         (Some "createdAt") (Some "desc") (Some 20%Z) None;
     searchParams := URLSearchParams.empty;
     searchQuery := "";
     selectedCategories := [];
     searchSubmitted := false |}.

(** What the user and the router can do to the view. *)
Inductive Event :=
  | Mount
  | TypeQuery (q : string)
  | Submit
  | Toggle (categorySlug : string)
  | Clear.

Definition step (st : State) (e : Event) : State :=
  match e with
  | Mount => mount st
  | TypeQuery q => setSearchQuery st q
  | Submit => handleSearchSubmit st
  | Toggle c => handleCategoryToggle st c
  | Clear => clearSearch st
  end.

(** The state after a sequence of events. *)
Definition run (st : State) (es : list Event) : State := fold_left step es st.

End Search.

(** ** Closed forms for the two passes *)

(** The comment objects an array of references points to. *)
Definition deref (h : heap) (ls : list loc) : option (list Comment) :=
  mapM (λ l, h !! l) ls.

(** The object stored by the first pass. *)
Definition fresh_copy (c : Comment) : Comment := with_replies c (Some []).

(** [commentMap] after the first pass over [cs], when the first copy is
    allocated at address [base]: a later comment with the same id replaces
    the entry of an earlier one. *)
Fixpoint index_ids (base : nat) (cs : list Comment) (m : gmap string loc)
  : gmap string loc :=
  match cs with
  | [] => m
  | c :: cs' => index_ids (S base) cs' (<[id c := base]> m)
  end.

(** The parent object a comment is pushed onto, if any. *)
Definition parent_loc (m : gmap string loc) (c : Comment) : option loc :=
  if truthy_string (parentId c) then parentId c ≫= (m !!.) else None.

(** References pushed onto the object at [l] by the second pass, in order. *)
Definition pushes (m : gmap string loc) (l : loc) (cs : list Comment)
  : list loc :=
  omap (λ c, if decide (parent_loc m c = Some l) then m !! id c else None) cs.

(** References pushed onto [rootComments], in order. *)
Definition roots_of (m : gmap string loc) (cs : list Comment) : list loc :=
  omap (λ c, if truthy_string (parentId c) then None else m !! id c) cs.

(** The effect of pushing [ks] onto the replies of [c], one at a time. *)
Definition add_replies (ks : list loc) (c : Comment) : Comment :=
  match ks with
  | [] => c
  | _ => with_replies c (Some (default [] (replies c) ++ ks))
  end.

(** [commentMap] at the end of the first pass, for a heap of size [base]. *)
Definition commentMap_of (base : nat) (cs : list Comment) : gmap string loc :=
  index_ids base cs ∅.

Definition organize_result (h : heap) (cs : list Comment) : heap * list loc :=
  let m := commentMap_of (length h) cs in
  (h ++ imap (λ k c, with_replies c (Some (pushes m (length h + k) cs))) cs,
   roots_of m cs).

(** ** The threading relation on comment values *)

(** The parent id a comment refers to, as the second pass reads it:
    [comment.parentId] when it passes the test [if (comment.parentId)],
    that is, when it is defined and not the empty string. *)
Definition parent_ref (c : Comment) : option string :=
  if truthy_string (parentId c) then parentId c else None.

(** Comments that take the [else] branch of the second pass. *)
Definition roots (cs : list Comment) : list Comment :=
  filter (λ c, parent_ref c = None) cs.

(** Comments that name [p] as their parent. *)
Definition children (cs : list Comment) (p : string) : list Comment :=
  filter (λ c, parent_ref c = Some p) cs.

(** [c] names [p], a comment of the collection, as its parent. *)
Definition parent_edge (cs : list Comment) (c p : Comment) : Prop :=
  c ∈ cs ∧ p ∈ cs ∧ parent_ref c = Some (id p).

(** [c] is [k] parent steps away from a parentless comment. *)
Inductive at_depth (cs : list Comment) : nat → Comment → Prop :=
  | at_depth_root c :
      c ∈ cs → parent_ref c = None → at_depth cs 0 c
  | at_depth_child k c p :
      c ∈ cs → parent_ref c = Some (id p) → at_depth cs k p →
      at_depth cs (S k) c.

(** All replies to the comments of [xs]. *)
Definition next_level (cs xs : list Comment) : list Comment :=
  xs ≫= λ x, children cs (id x).

(** The comments [k] reply steps below [xs]. *)
Definition level_from (cs : list Comment) (k : nat) (xs : list Comment)
  : list Comment :=
  Nat.iter k (next_level cs) xs.

(** Pre-order traversal of the reply forest below [xs], to depth [fuel]. *)
Fixpoint dfs (cs : list Comment) (fuel : nat) (xs : list Comment)
  : list Comment :=
  match fuel with
  | O => []
  | S fuel' => xs ≫= λ x, x :: dfs cs fuel' (children cs (id x))
  end.

(** The same comments level by level. *)
Definition bfs (cs : list Comment) (fuel : nat) (xs : list Comment)
  : list Comment :=
  seq 0 fuel ≫= λ k, level_from cs k xs.

(** The object that stands for a comment in the result. *)
Definition node (m : gmap string loc) (c : Comment) : loc :=
  default 0 (m !! id c).

(** The fields of a comment that [organizeComments] copies. *)
Definition persisted (c : Comment) : Comment := with_replies c None.

(** The ids of the objects an array of references points to. *)
Definition ids_at (h : heap) (ls : list loc) : option (list string) :=
  match deref h ls with
  | Some cs => Some (id <$> cs)
  | None => None
  end.

(** ** Reachability in the result *)

(** Objects reachable from [rootComments] through [replies]. *)
Inductive in_forest (h : heap) (rs : list loc) : loc → Prop :=
  | in_forest_root l : l ∈ rs → in_forest h rs l
  | in_forest_reply l l' o :
      in_forest h rs l → h !! l = Some o → l' ∈ default [] (replies o) →
      in_forest h rs l'.

(** ** Fixtures *)

(** A comment record with the given id and parent id; the other fields are
    fixed. *)
Definition fixture (i : string) (p : option string) : Comment :=
  mkComment i "text" "blog-1" "user-1" None p None 0 0.

(** Two root comments followed by two replies to the first. *)
Definition thread_fixture : list Comment :=
  [fixture "1" None; fixture "2" None;
   fixture "1a" (Some "1"); fixture "1b" (Some "1")].

(** A reply whose parent is not in the collection. *)
Definition orphan_fixture : list Comment := [fixture "a" (Some "missing")].

(** A comment that names itself as its parent. *)
Definition self_reply_fixture : list Comment := [fixture "a" (Some "a")].

(** Two comments that name each other as parent, and a root. *)
Definition cycle_fixture : list Comment :=
  [fixture "r" None; fixture "x" (Some "y"); fixture "y" (Some "x")].


(** ** Rendering the thread (CommentSection.tsx) *)

Module CommentItem.

(** A rendered comment card: the object shown, its nesting depth, and
    whether the Reply control is offered ([user && depth < 3]). *)
Record Row := mkRow {
  row_comment : loc;
  row_depth : nat;
  row_canReply : bool
}.

(** [CommentItem] applied to each object of [ls] at nesting [depth]: the
    card of the comment, then [comment.replies?.map(...)] one level
    deeper.  [fuel] bounds the nesting; running out of it yields [None]. *)
Fixpoint render (fuel : nat) (loggedIn : bool) (h : heap) (depth : nat)
    (ls : list loc) : option (list Row) :=
  match fuel with
  | O => match ls with [] => Some [] | _ => None end
  | S fuel' =>
      @concat Row <$> mapM (λ l,
        c ← h !! l;
        (mkRow l depth (loggedIn && (depth <? 3)) ::.)
          <$> render fuel' loggedIn h (S depth) (default [] (replies c))) ls
  end.

End CommentItem.

(** What the comment section shows below the form. *)
Inductive ThreadBody :=
  | Skeleton
  | Thread (rows : list CommentItem.Row)
  | NoCommentsYet.

(** The header count [comments.length] and the list below it:
    [isLoading ? skeleton : organizedComments.length > 0 ? cards : empty]. *)
Definition commentSection (fuel : nat) (loggedIn isLoading : bool)
    (h : heap) (comments : list loc) : option (nat * ThreadBody) :=
  '(h', organizedComments) ← organizeComments h comments;
  if isLoading then Some (length comments, Skeleton)
  else match organizedComments with
       | [] => Some (length comments, NoCommentsYet)
       | _ =>
           rows ← CommentItem.render fuel loggedIn h' 0 organizedComments;
           Some (length comments, Thread rows)
       end.

(** Pre-order traversal of the reply forest with the depth of each visit. *)
Fixpoint dfs_depth (cs : list Comment) (fuel depth : nat) (xs : list Comment)
  : list (Comment * nat) :=
  match fuel with
  | O => []
  | S fuel' =>
      xs ≫= λ x, (x, depth) :: dfs_depth cs fuel' (S depth) (children cs (id x))
  end.

(** The card rendered for a visit, when [m] gives the object of each id. *)
Definition row_of (m : gmap string loc) (loggedIn : bool)
    (v : Comment * nat) : CommentItem.Row :=
  CommentItem.mkRow (node m v.1) v.2 (loggedIn && (v.2 <? 3)).

(** ** The blog provider (state updates of the context) *)

Module BlogRecord.

Record Blog := mkBlog {
  id : string;
  title : string;
  content : string;
  excerpt : string;
  slug : string;
  featuredImage : option string;
  categories : list string;
  tags : list string;
  authorId : string;
  author : option User;
  status : BlogStatus;
  publishedAt : option Z;
  createdAt : Z;
  updatedAt : Z;
  likes : Z;
  views : Z;
  readTime : Z
}.

(** [{ ...blog, likes: n }] *)
Definition with_likes (b : Blog) (n : Z) : Blog :=
  {| id := id b; title := title b; content := content b;
     excerpt := excerpt b; slug := slug b; featuredImage := featuredImage b;
     categories := categories b; tags := tags b; authorId := authorId b;
     author := author b; status := status b; publishedAt := publishedAt b;
     createdAt := createdAt b; updatedAt := updatedAt b; likes := n;
     views := views b; readTime := readTime b |}.

End BlogRecord.

(** [ApiResponse<T>] as the handlers read it. *)
Record ApiResponse (T : Type) := mkResponse {
  success : bool;
  data : option T;
  message : option string;
  error : option string
}.
Arguments mkResponse {T}.
Arguments success {T}.
Arguments data {T}.
Arguments message {T}.
Arguments error {T}.

Module BlogProvider.

Import BlogRecord.

(** The part of the provider state that the like, remove and comment
    operations update. *)
Record State := mkState {
  blogs : list Blog;
  currentBlog : option Blog;
  comments : list loc
}.

(** [currentBlog?.id === blogId] on the [currentBlog] that the callback
    captured when [useCallback] built it. *)
Definition captured_is (captured : option Blog) (blogId : string) : bool :=
  match captured with
  | Some b => String.eqb (id b) blogId
  | None => false
  end.

(** The state updates of [removeBlog(blogId)] once [deleteBlog] has
    answered with [response].  [captured] is the current blog of the render
    that built the callback, which the test reads; [st] is the state when
    the answer arrives, which [setBlogs((prev) => ...)] updates. *)
Definition removeBlog (captured : option Blog) (st : State)
    (blogId : string) (response : ApiResponse unit) : State :=
  if success response then
    {| blogs := filter (λ blog, id blog ≠ blogId) (blogs st);
       currentBlog :=
         if captured_is captured blogId then None else currentBlog st;
       comments := comments st |}
  else st.

(** The state updates of [likeBlog(blogId)] once [toggleBlogLike] has
    answered with [response], whose data is [(liked, likeCount)].
    [captured] is the current blog of the render that built the callback,
    which the test reads; [st] is the state when the answer arrives, which
    the two functional updates [(prev) => ...] act on. *)
Definition likeBlog (captured : option Blog) (st : State)
    (blogId : string) (response : ApiResponse (bool * Z)) : State :=
  match success response, data response with
  | true, Some (_, likeCount) =>
      {| blogs :=
           (λ blog, if String.eqb (id blog) blogId
                    then with_likes blog likeCount else blog) <$> blogs st;
         currentBlog :=
           if captured_is captured blogId
           then match currentBlog st with
                | Some prev => Some (with_likes prev likeCount)
                | None => None
                end
           else currentBlog st;
         comments := comments st |}
  | _, _ => st
  end.

(** The state update of [addBlogComment] once [addComment] has answered
    with [response], whose data is the new comment object:
    [setComments((prev) => [response.data, ...prev])]. *)
Definition addBlogComment (st : State) (response : ApiResponse loc) : State :=
  match success response, data response with
  | true, Some c =>
      {| blogs := blogs st; currentBlog := currentBlog st;
         comments := c :: comments st |}
  | _, _ => st
  end.

End BlogProvider.

(** ** The home page (the [Home] component) *)

(** [Array.prototype.sort(compare)]: the stable sort that puts [a] before
    [b] when [compare(a, b) < 0] and keeps the input order of elements that
    compare equal. *)
Fixpoint sort_insert {A} (compare : A → A → Z) (x : A) (l : list A) : list A :=
  match l with
  | [] => [x]
  | y :: l' =>
      if (compare x y <=? 0)%Z then x :: y :: l'
      else y :: sort_insert compare x l'
  end.

Fixpoint sort {A} (compare : A → A → Z) (l : list A) : list A :=
  match l with
  | [] => []
  | x :: l' => sort_insert compare x (sort compare l')
  end.

Module Home.

Import BlogRecord.

(** [blogs.filter((blog) => blog.status === "published")
         .sort((a, b) => b.likes - a.likes).slice(0, 3)] *)
Definition featured (blogs : list Blog) : list Blog :=
  take 3 (sort (λ a b, (likes b - likes a)%Z)
            (filter (λ blog, status blog = Published) blogs)).

(** Three of the four figures of the statistics row (the fourth is the
    number of categories). *)
Definition totalBlogs (blogs : list Blog) : nat :=
  length (filter (λ b, status b = Published) blogs).

Definition activeWriters (blogs : list Blog) : nat :=
  size (list_to_set (authorId <$> blogs) : gset string).

(** [blogs.reduce((sum, blog) => sum + blog.views, 0)].  The views are
    integers here and [+] is that of Z, which is the sum of the language as
    long as the views are not negative and their total is an integer that
    its numbers hold exactly ([exact_integer]). *)
Definition totalViews (blogs : list Blog) : Z :=
  fold_left (λ sum blog, (sum + views blog)%Z) blogs 0%Z.

End Home.

(** ** Further handlers of the blog-list view *)

(** [s.split(sep)] for a separator of one character: the pieces between
    the occurrences of [sep], at least one piece. *)
Fixpoint split (sep : Ascii.ascii) (s : string) : list string :=
  match s with
  | EmptyString => [EmptyString]
  | String c s' =>
      if Ascii.eqb c sep then EmptyString :: split sep s'
      else match split sep s' with
           | p :: ps => String c p :: ps
           | [] => [String c EmptyString]
           end
  end.

(** Whether the character [c] occurs in [s]. *)
Fixpoint has_char (c : Ascii.ascii) (s : string) : bool :=
  match s with
  | EmptyString => false
  | String c' s' => Ascii.eqb c' c || has_char c s'
  end.

(** The character ["-"]. *)
Definition dash : Ascii.ascii := Ascii.ascii_of_nat 45.

Module BlogListHandlers.

Import BlogList.

Definition setLocalSearch (st : State) (s : string) : State :=
  {| filters := filters st; searchParams := searchParams st;
     localSearch := s; selectedCategories := selectedCategories st |}.

(** [const [sortBy, sortOrder] = value.split("-")] *)
Definition handleSortChange (st : State) (value : string) : State :=
  let parts := split dash value in
  applyFilters st
    (mkPartial None None None None None
       (Some (parts !! 0)) (Some (parts !! 1)) None None).

(** The [X] of the search badge:
    [setLocalSearch(""); applyFilters({ search: undefined })]. *)
Definition clearSearchBadge (st : State) : State :=
  applyFilters (setLocalSearch st "")
    (mkPartial (Some None) None None None None None None None None).

(** [hasActiveFilters], as the condition it is used for. *)
Definition hasActiveFilters (st : State) : bool :=
  truthy_string (search (filters st))
  || match Types.categories (filters st) with
     | Some (_ :: _) => true
     | _ => false
     end
  || negb (bool_decide (sortBy (filters st) = Some "createdAt"))
  || negb (bool_decide (sortOrder (filters st) = Some "desc")).

(** The value of the sort dropdown:
    [`${filters.sortBy}-${filters.sortOrder}`]. *)
Definition sortValue (sortBy sortOrder : string) : string :=
  sortBy ++ "-" ++ sortOrder.

(** What the user can do once the view is mounted. *)
Inductive Event :=
  | TypeSearch (s : string)
  | SubmitSearch
  | ClearSearchBadge
  | Toggle (categorySlug : string)
  | SortChange (value : string)
  | PageChange (page : Z)
  | ClearAll.

Definition step (st : State) (e : Event) : State :=
  match e with
  | TypeSearch s => setLocalSearch st s
  | SubmitSearch => handleSearchSubmit st
  | ClearSearchBadge => clearSearchBadge st
  | Toggle c => handleCategoryToggle st c
  | SortChange v => handleSortChange st v
  | PageChange p => handlePageChange st p
  | ClearAll => clearAllFilters st
  end.

(** The view after it has been opened at [url] and has handled [es]. *)
Definition session (ctx : BlogFilters) (url : URLSearchParams.t)
    (es : list Event) : State :=
  fold_left step es (mount (mkState ctx url "" [])).

(** Whether the handler of an event stores a filter object in the context
    ([setFilters] or [clearFilters]); typing in the search box does not. *)
Definition stores_filters (e : Event) : bool :=
  match e with
  | TypeSearch _ => false
  | _ => true
  end.

(** The renders whose filter object is new, from the state [st] on. *)
Fixpoint fetched_from (st : State) (es : list Event) : list State :=
  match es with
  | [] => []
  | e :: es' =>
      (if stores_filters e then [step st e] else [])
      ++ fetched_from (step st e) es'
  end.

(** The renders after which the effect
    [useEffect(() => { fetchBlogs(filters) }, [filters, fetchBlogs])] runs,
    each with the filters it hands to [fetchBlogs]: the first render, whose
    filters are those the context holds when the view is opened; the render
    that follows the mount effect; and the render that follows every event
    that stores a filter object. *)
Definition fetched (ctx : BlogFilters) (url : URLSearchParams.t)
    (es : list Event) : list State :=
  let st0 := mkState ctx url "" [] in
  st0 :: mount st0 :: fetched_from (mount st0) es.

(** The category filter is the selection of the panel, and no category is
    selected twice. *)
Definition synced (st : State) : Prop :=
  Types.categories (filters st)
  = nonempty_or_undefined (selectedCategories st)
  ∧ NoDup (selectedCategories st).

End BlogListHandlers.

(** ** Further handlers of the keyword-search view *)

Module SearchHandlers.

Import Search.

(** [hasActiveFilters], as the condition it is used for. *)
Definition hasActiveFilters (st : State) : bool :=
  truthy_string (Some (searchQuery st))
  || negb (Nat.eqb (length (selectedCategories st)) 0)
  || searchSubmitted st.

(** The [X] of the query badge:
    [setSearchQuery(""); handleSearch("", selectedCategories)]. *)
Definition clearQueryBadge (st : State) : State :=
  setSearchQuery (handleSearch st "" (selectedCategories st)) "".

(** The URL mirrors the filters: [q] carries the search text and
    [category] the first category. *)
Definition mirrors (st : State) : Prop :=
  URLSearchParams.get "q" (searchParams st) = search (filters st)
  ∧ URLSearchParams.get "category" (searchParams st)
    = head (default [] (Types.categories (filters st))).

End SearchHandlers.

(** ** Initials of a name ([getInitials] of the comment item, the blog page
    and the profile page) *)

(** Strings are sequences of 8-bit characters here; for names of ASCII
    characters they are the strings of the program, with [n[0]] the first
    character and [toUpperCase] acting on the letters [a] to [z]. *)
Definition is_ascii (s : string) : Prop :=
  Forall (λ c, Ascii.nat_of_ascii c < 128) (String.list_ascii_of_string s).

Definition space : Ascii.ascii := Ascii.ascii_of_nat 32.

Definition upper_char (c : Ascii.ascii) : Ascii.ascii :=
  let n := Ascii.nat_of_ascii c in
  if (97 <=? n) && (n <=? 122) then Ascii.ascii_of_nat (n - 32) else c.

Fixpoint toUpperCase (s : string) : string :=
  match s with
  | EmptyString => EmptyString
  | String c s' => String (upper_char c) (toUpperCase s')
  end.

(** [n[0]], which [join] renders as the empty string when undefined. *)
Definition first_char (n : string) : string :=
  match n with
  | EmptyString => EmptyString
  | String c _ => String c EmptyString
  end.

(** [pieces.join("")] *)
Definition join (pieces : list string) : string :=
  fold_right String.append EmptyString pieces.

(** [name.split(" ").map((n) => n[0]).join("").toUpperCase()] *)
Definition getInitials (name : string) : string :=
  toUpperCase (join (first_char <$> split space name)).

(** ** The tags of the blog editor (the [BlogEditor] component) *)

Module BlogEditor.

(** The tag list and the tag input.  [trim] and [toLowerCase] are the
    string methods of the language, passed as parameters. *)
Record State := mkState {
  tags : list string;
  newTag : string
}.

Definition setNewTag (st : State) (value : string) : State :=
  {| tags := tags st; newTag := value |}.

(** [if (newTag.trim() && !tags.includes(newTag.trim().toLowerCase()))
       { setTags([...tags, newTag.trim().toLowerCase()]); setNewTag("") }] *)
Definition handleAddTag (trim toLowerCase : string → string)
    (st : State) : State :=
  if truthy_string (Some (trim (newTag st)))
     && negb (includes (tags st) (toLowerCase (trim (newTag st))))
  then {| tags := tags st ++ [toLowerCase (trim (newTag st))];
          newTag := EmptyString |}
  else st.

(** [setTags(tags.filter((tag) => tag !== tagToRemove))] *)
Definition handleRemoveTag (st : State) (tagToRemove : string) : State :=
  {| tags := without (tags st) tagToRemove; newTag := newTag st |}.

Inductive Event :=
  | TypeTag (value : string)
  | AddTag
  | RemoveTag (tag : string).

Definition step (trim toLowerCase : string → string)
    (st : State) (e : Event) : State :=
  match e with
  | TypeTag value => setNewTag st value
  | AddTag => handleAddTag trim toLowerCase st
  | RemoveTag tag => handleRemoveTag st tag
  end.

Definition run (trim toLowerCase : string → string)
    (st : State) (es : list Event) : State :=
  fold_left (step trim toLowerCase) es st.

End BlogEditor.
(** ** The two passes compute their closed forms *)

Section Passes.

#[local] Arguments pushes : simpl never.
#[local] Arguments roots_of : simpl never.
#[local] Arguments add_replies : simpl never.

Lemma deref_cons h l ls cs :
  deref h (l :: ls) = Some cs ↔
  ∃ c cs', h !! l = Some c ∧ deref h ls = Some cs' ∧ cs = c :: cs'.
Proof.
  unfold deref. simpl. split.
  - destruct (h !! l) as [c|]; simpl; [|done].
    destruct (mapM _ ls) as [cs'|]; simpl; [|done].
    intros [= <-]. eauto.
  - intros (c & cs' & -> & -> & ->). done.
Qed.

Lemma deref_nil h cs : deref h [] = Some cs ↔ cs = [].
Proof. unfold deref. simpl. split; [by intros [= <-]|by intros ->]. Qed.

Lemma deref_lt h ls cs l :
  deref h ls = Some cs → l ∈ ls → l < length h.
Proof.
  revert cs. induction ls as [|l' ls IH]; intros cs Hd Hin.
  - by apply elem_of_nil in Hin.
  - apply deref_cons in Hd as (c & cs' & Hl & Hd & ->).
    apply elem_of_cons in Hin as [->|Hin]; [by eapply lookup_lt_Some|eauto].
Qed.

(** Reading through [ls] gives the same objects in any heap that agrees
    with [h] on the addresses in [ls]. *)
Lemma deref_agree h h' ls cs :
  deref h ls = Some cs → (∀ l, l ∈ ls → h' !! l = h !! l) →
  deref h' ls = Some cs.
Proof.
  revert cs. induction ls as [|l ls IH]; intros cs Hd Hag.
  - by apply deref_nil in Hd as ->.
  - apply deref_cons in Hd as (c & cs' & Hl & Hd & ->).
    apply deref_cons. exists c, cs'. split_and!; [|apply IH|]; try done.
    + rewrite Hag; [done|]. apply elem_of_cons; auto.
    + intros l' Hl'. apply Hag. apply elem_of_cons; auto.
Qed.

Lemma deref_length h ls cs : deref h ls = Some cs → length cs = length ls.
Proof. intros H. symmetry. by eapply length_mapM. Qed.

(** An array of references into the heap can be read. *)
Lemma deref_total h ls :
  (∀ l, l ∈ ls → l < length h) → is_Some (deref h ls).
Proof.
  induction ls as [|l ls IH]; intros Hlt; [by eexists|].
  destruct IH as [cs Hcs].
  { intros l' Hl'. apply Hlt, elem_of_cons; auto. }
  destruct (lookup_lt_is_Some_2 h l) as [c Hc].
  { apply Hlt, elem_of_cons; auto. }
  exists (c :: cs). apply deref_cons. eauto.
Qed.

(** More fuel does not change the outcome of a traversal. *)
Lemma flatten_mono f : ∀ h ls out,
  flatten f h ls = Some out → flatten (S f) h ls = Some out.
Proof.
  induction f as [|f IH]; intros h ls out Hf.
  - destruct ls; [|done]. by injection Hf as <-.
  - change (flatten (S (S f)) h ls)
      with (@concat loc <$> mapM (λ l,
              c ← h !! l;
              (l ::.) <$> flatten (S f) h (default [] (replies c))) ls).
    cbn [flatten] in Hf.
    destruct (mapM _ ls) as [ys|] eqn:Hm; [|done].
    simpl in Hf. injection Hf as <-.
    apply mapM_Some_1 in Hm. erewrite mapM_Some_2; [done|].
    eapply Forall2_impl; [exact Hm|]. intros l y Hy. simpl in *.
    destruct (h !! l) as [c|]; [|done]. simpl in *.
    destruct (flatten f h _) as [z|] eqn:Hz; [|done].
    simpl in Hy. by rewrite (IH _ _ _ Hz).
Qed.

Lemma firstPass_spec ls : ∀ h m cs,
  deref h ls = Some cs →
  forEach firstPass ls (h, m)
  = Some (h ++ (fresh_copy <$> cs), index_ids (length h) cs m).
Proof.
  induction ls as [|l ls IH]; intros h m cs Hd.
  - apply deref_nil in Hd as ->. simpl. by rewrite app_nil_r.
  - pose proof Hd as Hd0.
    apply deref_cons in Hd as (c & cs' & Hl & Hd & ->).
    simpl. rewrite Hl. simpl.
    rewrite (IH _ _ cs').
    + rewrite length_app. simpl. rewrite Nat.add_1_r.
      by rewrite <- app_assoc.
    + eapply deref_agree; [done|]. intros l' Hl'.
      apply lookup_app_l. eapply deref_lt; [exact Hd|done].
Qed.

Lemma add_replies_push o ks x :
  add_replies ks (with_replies o (Some (default [] (replies o) ++ [x])))
  = add_replies (x :: ks) o.
Proof.
  destruct ks as [|k ks]; unfold add_replies; simpl; [done|].
  unfold with_replies; simpl. by rewrite <- app_assoc.
Qed.

Lemma pushes_cons_eq m l c cs x :
  parent_loc m c = Some l → m !! id c = Some x →
  pushes m l (c :: cs) = x :: pushes m l cs.
Proof.
  intros Hp Hx. unfold pushes. cbn [omap list_omap].
  case_decide; [|done]. by rewrite Hx.
Qed.

Lemma pushes_cons_ne m l c cs :
  parent_loc m c ≠ Some l → pushes m l (c :: cs) = pushes m l cs.
Proof. intros Hp. unfold pushes. cbn [omap list_omap]. by case_decide. Qed.

Lemma secondPass_spec m ls : ∀ h roots cs,
  deref h ls = Some cs →
  (∀ c, c ∈ cs → is_Some (m !! id c)) →
  (∀ i l, m !! i = Some l → (l ∉ ls) ∧ (l < length h)) →
  forEach (secondPass m) ls (h, roots)
  = Some (imap (λ l o, add_replies (pushes m l cs) o) h,
          roots ++ roots_of m cs).
Proof.
  induction ls as [|l0 ls IH]; intros h roots cs Hd Hin Hran.
  - apply deref_nil in Hd as ->. simpl. rewrite app_nil_r. do 2 f_equal.
    apply list_eq; intros i. rewrite list_lookup_imap.
    simpl. by destruct (_ !! _).
  - apply deref_cons in Hd as (c & cs' & Hl & Hd & ->).
    destruct (Hin c) as [x Hx]; [apply elem_of_cons; auto|].
    assert (Hin' : ∀ c', c' ∈ cs' → is_Some (m !! id c')).
    { intros c' Hc'. apply Hin. apply elem_of_cons; auto. }
    simpl. rewrite Hl. simpl. rewrite Hx. simpl.
    destruct (truthy_string (parentId c)) eqn:Ht.
    + destruct (parentId c ≫= (m !!.)) as [lp|] eqn:Hp.
      * assert (Hpl : parent_loc m c = Some lp) by (unfold parent_loc; by rewrite Ht).
        assert (∃ p, m !! p = Some lp) as [p Hmp].
        { destruct (parentId c); [by eexists|done]. }
        destruct (Hran _ _ Hmp) as [Hnotin Hlt].
        destruct (lookup_lt_is_Some_2 h lp Hlt) as [o Ho].
        unfold push_reply. rewrite Ho. simpl.
        rewrite (IH _ _ cs'); try done.
        -- f_equal. f_equal.
           ++ apply list_eq; intros i. rewrite !list_lookup_imap.
              destruct (decide (i = lp)) as [->|Hne].
              ** rewrite list_lookup_insert_eq by done. rewrite Ho. simpl.
                 rewrite (pushes_cons_eq _ _ _ _ x) by done.
                 by rewrite add_replies_push.
              ** rewrite list_lookup_insert_ne by done.
                 rewrite pushes_cons_ne; [done|]. rewrite Hpl. congruence.
           ++ unfold roots_of. simpl. by rewrite Ht.
        -- eapply deref_agree; [done|]. intros l' Hl'.
           apply list_lookup_insert_ne. intros ->. apply Hnotin.
           apply elem_of_cons; auto.
        -- intros i l' Hil'. destruct (Hran _ _ Hil') as [Hn Hlt'].
           rewrite length_insert. split; [|done].
           intros Hc. apply Hn. apply elem_of_cons; auto.
      * assert (Hpl : parent_loc m c = None) by (unfold parent_loc; by rewrite Ht).
        simpl. rewrite (IH _ _ cs'); try done.
        -- f_equal. f_equal.
           ++ apply list_eq; intros i. rewrite !list_lookup_imap.
              rewrite pushes_cons_ne; [done|]. by rewrite Hpl.
           ++ unfold roots_of. simpl. by rewrite Ht.
        -- intros i l' Hil'. destruct (Hran _ _ Hil') as [Hn Hlt'].
           split; [|done]. intros Hc. apply Hn. apply elem_of_cons; auto.
    + assert (Hpl : parent_loc m c = None) by (unfold parent_loc; by rewrite Ht).
      simpl. rewrite (IH _ _ cs'); try done.
      * f_equal. f_equal.
        -- apply list_eq; intros i. rewrite !list_lookup_imap.
           rewrite pushes_cons_ne; [done|]. by rewrite Hpl.
        -- unfold roots_of. simpl. rewrite Ht, Hx. simpl.
           by rewrite <- app_assoc.
      * intros i l' Hil'. destruct (Hran _ _ Hil') as [Hn Hlt'].
        split; [|done]. intros Hc. apply Hn. apply elem_of_cons; auto.
Qed.

(** *** The lookup built by the first pass *)

Lemma index_ids_notin cs : ∀ base m i,
  i ∉ (id <$> cs) → index_ids base cs m !! i = m !! i.
Proof.
  induction cs as [|c cs IH]; intros base m i Hi; [done|].
  rewrite fmap_cons in Hi. apply not_elem_of_cons in Hi as [Hne Hi].
  simpl. rewrite IH by done. by rewrite lookup_insert_ne.
Qed.

Lemma index_ids_Some cs : ∀ base m i l,
  index_ids base cs m !! i = Some l →
  m !! i = Some l ∨ ∃ k c, cs !! k = Some c ∧ id c = i ∧ l = base + k.
Proof.
  induction cs as [|c cs IH]; intros base m i l Hl; [by left|].
  simpl in Hl. apply IH in Hl as [Hl|(k & c' & Hk & Hid & ->)].
  - destruct (decide (id c = i)) as [<-|Hne].
    + rewrite lookup_insert_eq in Hl. injection Hl as <-.
      right. exists 0, c. split_and!; [done|done|lia].
    + rewrite lookup_insert_ne in Hl by done. by left.
  - right. exists (S k), c'. split_and!; [done|done|lia].
Qed.

Lemma index_ids_in cs : ∀ base m c,
  c ∈ cs → is_Some (index_ids base cs m !! id c).
Proof.
  induction cs as [|c0 cs IH]; intros base m c Hc.
  - by apply elem_of_nil in Hc.
  - simpl. destruct (decide (id c ∈ (id <$> cs))) as [Hin|Hnotin].
    + apply list_elem_of_fmap in Hin as (c' & Hid & Hc'). rewrite Hid.
      by apply IH.
    + rewrite index_ids_notin by done.
      apply elem_of_cons in Hc as [->|Hc].
      * rewrite lookup_insert_eq. by eexists.
      * exfalso. apply Hnotin. apply list_elem_of_fmap. eauto.
Qed.

Lemma index_ids_NoDup cs : ∀ base m k c,
  NoDup (id <$> cs) → cs !! k = Some c →
  index_ids base cs m !! id c = Some (base + k).
Proof.
  induction cs as [|c0 cs IH]; intros base m k c Hnd Hk; [done|].
  rewrite fmap_cons in Hnd. apply NoDup_cons in Hnd as [Hnotin Hnd].
  destruct k as [|k]; simpl in *.
  - injection Hk as ->. rewrite index_ids_notin by done.
    rewrite lookup_insert_eq. f_equal. lia.
  - rewrite (IH _ _ k c) by done. f_equal. lia.
Qed.

Lemma pushes_unreferenced m l cs :
  (∀ i, m !! i ≠ Some l) → pushes m l cs = [].
Proof.
  intros Hl. induction cs as [|c cs IH]; [done|].
  rewrite pushes_cons_ne; [done|]. unfold parent_loc.
  destruct (truthy_string _); [|done].
  destruct (parentId c) as [p|]; [apply Hl|done].
Qed.

(** *** The result of [organizeComments] in closed form *)

Lemma commentMap_of_range base cs i l :
  commentMap_of base cs !! i = Some l →
  ∃ k c, cs !! k = Some c ∧ id c = i ∧ l = base + k.
Proof.
  intros Hl. apply index_ids_Some in Hl as [Hl|Hl]; [|done].
  by rewrite lookup_empty in Hl.
Qed.

Theorem organizeComments_spec h ls cs :
  deref h ls = Some cs →
  organizeComments h ls = Some (organize_result h cs).
Proof.
  intros Hd. unfold organizeComments.
  rewrite (firstPass_spec _ _ _ cs) by done. simpl.
  fold (commentMap_of (length h) cs). set (m := commentMap_of (length h) cs).
  rewrite (secondPass_spec m ls _ _ cs).
  - unfold organize_result. fold m. simpl. do 2 f_equal.
    rewrite imap_app. f_equal.
    + apply list_eq; intros i. rewrite list_lookup_imap.
      destruct (h !! i) as [o|] eqn:Hi; [|done]. simpl. f_equal.
      rewrite pushes_unreferenced; [done|].
      intros j Hj. apply commentMap_of_range in Hj as (k & c & _ & _ & ->).
      apply lookup_lt_Some in Hi. lia.
    + rewrite imap_fmap. apply imap_ext. intros k c _. simpl.
      unfold add_replies, fresh_copy.
      destruct (pushes m (length h + k) cs); done.
  - eapply deref_agree; [done|]. intros l Hl.
    apply lookup_app_l. by eapply deref_lt.
  - intros c Hc. by apply index_ids_in.
  - intros i l Hl. apply commentMap_of_range in Hl as (k & c & Hk & _ & ->).
    split.
    + intros Hin. eapply deref_lt in Hin; [|done]. lia.
    + rewrite length_app, length_fmap. apply lookup_lt_Some in Hk. lia.
Qed.

End Passes.


(** ** The result as a forest over the input comments *)

Section Result.

Variable h : heap.
Variable cs : list Comment.

Abbreviation m := (commentMap_of (length h) cs).
Abbreviation h' := ((organize_result h cs).1).

#[local] Arguments pushes : simpl never.
#[local] Arguments roots_of : simpl never.

Lemma node_lookup c : c ∈ cs → m !! id c = Some (node m c).
Proof.
  intros Hc. unfold node.
  destruct (index_ids_in cs (length h) ∅ c Hc) as [l Hl].
  fold (commentMap_of (length h) cs) in Hl. by rewrite Hl.
Qed.

Lemma node_range c :
  c ∈ cs →
  ∃ k c', cs !! k = Some c' ∧ id c' = id c ∧ node m c = length h + k.
Proof.
  intros Hc. pose proof (node_lookup c Hc) as Hl.
  by apply commentMap_of_range in Hl.
Qed.

Lemma commentMap_inj i j l : m !! i = Some l → m !! j = Some l → i = j.
Proof.
  intros Hi Hj.
  apply commentMap_of_range in Hi as (k & c & Hk & <- & ->).
  apply commentMap_of_range in Hj as (k' & c' & Hk' & <- & Heq).
  assert (k' = k) as -> by lia. congruence.
Qed.

Lemma node_NoDup k c :
  NoDup (id <$> cs) → cs !! k = Some c → node m c = length h + k.
Proof.
  intros Hnd Hk. unfold node, m, commentMap_of.
  by rewrite (index_ids_NoDup cs _ _ k c).
Qed.

Lemma id_inj_NoDup c c' :
  NoDup (id <$> cs) → c ∈ cs → c' ∈ cs → id c = id c' → c = c'.
Proof.
  intros Hnd Hc Hc' Hid.
  apply list_elem_of_lookup in Hc as [k Hk].
  apply list_elem_of_lookup in Hc' as [k' Hk'].
  assert (k = k'); [|congruence].
  eapply NoDup_lookup; [exact Hnd| |];
    rewrite list_lookup_fmap; [by rewrite Hk|by rewrite Hk', Hid].
Qed.

Lemma node_inj_NoDup c c' :
  NoDup (id <$> cs) → c ∈ cs → c' ∈ cs → node m c = node m c' → c = c'.
Proof.
  intros Hnd Hc Hc' Heq. apply id_inj_NoDup; try done.
  eapply commentMap_inj; [by apply node_lookup|].
  rewrite Heq. by apply node_lookup.
Qed.

Lemma roots_of_node ys :
  (∀ c, c ∈ ys → c ∈ cs) → roots_of m ys = node m <$> roots ys.
Proof.
  induction ys as [|y ys IH]; intros Hsub; [done|].
  unfold roots_of, roots in *. cbn [omap list_omap]. rewrite filter_cons.
  rewrite IH by (intros; apply Hsub, elem_of_cons; auto).
  unfold parent_ref. destruct (truthy_string (parentId y)) eqn:Ht.
  - rewrite decide_False; [done|].
    destruct (parentId y); [done|]. by simpl in Ht.
  - rewrite decide_True by done.
    rewrite node_lookup by (apply Hsub, elem_of_cons; auto). done.
Qed.

Lemma parent_loc_ref c p l :
  m !! p = Some l → parent_loc m c = Some l ↔ parent_ref c = Some p.
Proof.
  intros Hp. unfold parent_loc, parent_ref.
  destruct (truthy_string (parentId c)); [|done].
  destruct (parentId c) as [q|]; simpl; [|done]. split.
  - intros Hq. f_equal. by eapply commentMap_inj.
  - by intros [= ->].
Qed.

Lemma pushes_node ys p l :
  (∀ c, c ∈ ys → c ∈ cs) → m !! p = Some l →
  pushes m l ys = node m <$> children ys p.
Proof.
  intros Hsub Hp. induction ys as [|y ys IH]; [done|].
  unfold children in *. rewrite filter_cons.
  destruct (decide (parent_ref y = Some p)) as [Hy|Hy].
  - rewrite (pushes_cons_eq _ _ _ _ (node m y)).
    + rewrite IH by (intros; apply Hsub, elem_of_cons; auto). done.
    + by apply (parent_loc_ref y p l).
    + apply node_lookup, Hsub, elem_of_cons; auto.
  - rewrite pushes_cons_ne.
    + apply IH. intros; apply Hsub, elem_of_cons; auto.
    + by rewrite (parent_loc_ref y p l).
Qed.

(** The object standing for [x] carries the fields of a comment with the id
    of [x], and its replies are the objects of the children of [x]. *)
Lemma result_lookup x :
  x ∈ cs →
  ∃ c, c ∈ cs ∧ id c = id x ∧
       h' !! node m x
       = Some (with_replies c (Some (node m <$> children cs (id x)))).
Proof.
  intros Hx. destruct (node_range x Hx) as (k & c & Hk & Hid & Hn).
  exists c. split_and!; [by eapply list_elem_of_lookup_2|done|].
  unfold organize_result. cbn [fst].
  rewrite Hn, lookup_app_r by lia.
  replace (length h + k - length h) with k by lia.
  rewrite list_lookup_imap, Hk. simpl. do 3 f_equal.
  rewrite <- Hn. apply pushes_node; [done|]. by apply node_lookup.
Qed.

Lemma result_lookup_NoDup x :
  NoDup (id <$> cs) → x ∈ cs →
  h' !! node m x
  = Some (with_replies x (Some (node m <$> children cs (id x)))).
Proof.
  intros Hnd Hx. destruct (result_lookup x Hx) as (c & Hc & Hid & ->).
  by rewrite (id_inj_NoDup c x).
Qed.

Lemma result_roots : (organize_result h cs).2 = node m <$> roots cs.
Proof. unfold organize_result. cbn [snd]. by apply roots_of_node. Qed.

(** The caller's objects are untouched. *)
Lemma result_frame l : l < length h → h' !! l = h !! l.
Proof. intros Hl. unfold organize_result. cbn [fst]. by apply lookup_app_l. Qed.

Lemma result_length : length h' = length h + length cs.
Proof.
  unfold organize_result. cbn [fst]. by rewrite length_app, length_imap.
Qed.

End Result.

(** ** Depth-first and level order agree up to permutation *)

Section Traversal.

Variable cs : list Comment.

Lemma next_level_app a b :
  next_level cs (a ++ b) = next_level cs a ++ next_level cs b.
Proof. apply bind_app. Qed.

Lemma level_from_S k xs :
  level_from cs (S k) xs = next_level cs (level_from cs k xs).
Proof. done. Qed.

Lemma level_from_succ_r k xs :
  level_from cs (S k) xs = level_from cs k (next_level cs xs).
Proof. apply Nat.iter_succ_r. Qed.

Lemma level_from_app k : ∀ a b,
  level_from cs k (a ++ b) = level_from cs k a ++ level_from cs k b.
Proof.
  induction k as [|k IH]; intros a b; [done|].
  by rewrite !level_from_S, IH, next_level_app.
Qed.

Lemma level_from_nil k : level_from cs k [] = [].
Proof. induction k as [|k IH]; [done|]. by rewrite level_from_S, IH. Qed.

Lemma level_from_nil_le k k' xs :
  level_from cs k xs = [] → k ≤ k' → level_from cs k' xs = [].
Proof.
  intros Hk Hle. induction Hle as [|k' Hle IH]; [done|].
  by rewrite level_from_S, IH.
Qed.

(** If nothing lies [S k] levels below [xs], nothing lies [k] levels below
    the replies of a member of [xs]. *)
Lemma level_from_children k xs x :
  level_from cs (S k) xs = [] → x ∈ xs →
  level_from cs k (children cs (id x)) = [].
Proof.
  intros Hnil Hx. apply list_elem_of_split in Hx as (a & b & ->).
  rewrite level_from_succ_r, next_level_app in Hnil.
  unfold next_level at 2 in Hnil. rewrite bind_cons in Hnil.
  rewrite !level_from_app in Hnil.
  apply app_eq_nil in Hnil as [_ Hnil]. by apply app_eq_nil in Hnil as [Hnil _].
Qed.

Lemma dfs_app f a b : dfs cs f (a ++ b) = dfs cs f a ++ dfs cs f b.
Proof. destruct f; [done|]. simpl. apply bind_app. Qed.

Lemma dfs_nil f : dfs cs f [] = [].
Proof. by destruct f. Qed.

Lemma dfs_bind {A} f (g : A → list Comment) (xs : list A) :
  dfs cs f (xs ≫= g) = xs ≫= λ x, dfs cs f (g x).
Proof.
  induction xs as [|x xs IH]; [apply dfs_nil|].
  by rewrite !bind_cons, dfs_app, IH.
Qed.

Lemma bind_cons_Permutation {A} (g : A → list A) (xs : list A) :
  xs ≫= (λ x, x :: g x) ≡ₚ xs ++ (xs ≫= g).
Proof.
  induction xs as [|x xs IH]; [done|].
  rewrite !bind_cons. simpl. f_equiv. rewrite IH.
  rewrite !(assoc_L (++)). f_equiv. apply Permutation_app_comm.
Qed.

Lemma bfs_S f xs : bfs cs (S f) xs = xs ++ bfs cs f (next_level cs xs).
Proof.
  unfold bfs. rewrite <- cons_seq, bind_cons. f_equal.
  rewrite <- fmap_S_seq, list_fmap_bind.
  induction (seq 0 f) as [|k ks IH]; [done|].
  rewrite !bind_cons, IH. f_equal. simpl. apply level_from_succ_r.
Qed.

Lemma dfs_bfs f : ∀ xs, dfs cs f xs ≡ₚ bfs cs f xs.
Proof.
  induction f as [|f IH]; intros xs; [done|].
  rewrite bfs_S. cbn [dfs].
  rewrite (bind_cons_Permutation (λ x, dfs cs f (children cs (id x)))).
  f_equiv. rewrite <- dfs_bind. apply IH.
Qed.

Lemma elem_of_bfs f xs c :
  c ∈ bfs cs f xs ↔ ∃ k, k < f ∧ c ∈ level_from cs k xs.
Proof.
  unfold bfs. rewrite list_elem_of_bind. split.
  - intros (k & Hc & Hk). apply elem_of_seq in Hk. exists k. split; [lia|done].
  - intros (k & Hk & Hc). exists k. split; [done|]. apply elem_of_seq. lia.
Qed.

End Traversal.

(** ** Depth of a comment in the reply forest *)

(** A parent reference is a parent id that is defined and not empty. *)
Lemma parent_ref_Some c p :
  parent_ref c = Some p ↔ parentId c = Some p ∧ p ≠ "".
Proof.
  unfold parent_ref, truthy_string.
  destruct (parentId c) as [q|]; [|split; [done|by intros [? _]]].
  destruct (String.eqb_spec q "") as [->|Hne]; simpl; split.
  - done.
  - by intros [[= <-] ?].
  - by intros [= <-].
  - by intros [? _].
Qed.

Lemma parent_ref_None c :
  parent_ref c = None ↔ parentId c = None ∨ parentId c = Some "".
Proof.
  unfold parent_ref, truthy_string.
  destruct (parentId c) as [q|]; [|split; [by left|done]].
  destruct (String.eqb_spec q "") as [->|Hne]; simpl; split.
  - by right.
  - done.
  - done.
  - intros [?|[= ->]]; done.
Qed.

Section Depth.

Variable cs : list Comment.

Lemma at_depth_in k c : at_depth cs k c → c ∈ cs.
Proof. by destruct 1. Qed.

Lemma elem_of_roots c : c ∈ roots cs ↔ parent_ref c = None ∧ c ∈ cs.
Proof. unfold roots. by rewrite list_elem_of_filter. Qed.

Lemma elem_of_children p c :
  c ∈ children cs p ↔ parent_ref c = Some p ∧ c ∈ cs.
Proof. unfold children. by rewrite list_elem_of_filter. Qed.

Lemma elem_of_next_level xs c :
  c ∈ next_level cs xs ↔
  ∃ p, p ∈ xs ∧ parent_ref c = Some (id p) ∧ c ∈ cs.
Proof.
  unfold next_level. rewrite list_elem_of_bind.
  split; intros (p & H1 & H2); exists p.
  - apply elem_of_children in H1. tauto.
  - split; [|done]. apply elem_of_children. tauto.
Qed.

Lemma elem_of_level k : ∀ c,
  c ∈ level_from cs k (roots cs) ↔ at_depth cs k c.
Proof.
  induction k as [|k IH]; intros c.
  - simpl. rewrite elem_of_roots. split.
    + intros [? ?]. by constructor.
    + inversion 1; subst. done.
  - rewrite level_from_S, elem_of_next_level. split.
    + intros (p & Hp & Hc & Hin). apply IH in Hp. by econstructor.
    + inversion 1; subst. eexists. split_and!; [by apply IH|done|done].
Qed.

Lemma at_depth_pred k c : at_depth cs (S k) c → ∃ p, at_depth cs k p.
Proof. inversion 1; subst. eauto. Qed.

Lemma at_depth_below k c j : at_depth cs k c → j ≤ k → ∃ p, at_depth cs j p.
Proof.
  intros Hc Hle. revert c Hc. induction Hle as [|k Hle IH]; intros c Hc; [eauto|].
  apply at_depth_pred in Hc as [p Hp]. eauto.
Qed.

(** A comment whose parent id names no comment is at no depth. *)
Lemma orphan_no_depth k c p :
  parent_ref c = Some p → p ∉ (id <$> cs) → ¬ at_depth cs k c.
Proof.
  intros Hp Hnotin Hd. inversion Hd; subst; [congruence|].
  apply Hnotin. apply list_elem_of_fmap. eexists. split; [|by eapply at_depth_in].
  congruence.
Qed.

Lemma tc_edge_in c c' : tc (parent_edge cs) c c' → c ∈ cs.
Proof. induction 1 as [x y He|x y z He _ _]; by destruct He. Qed.

Hypothesis Hnd : NoDup (id <$> cs).

Lemma cs_NoDup : NoDup cs.
Proof. by eapply NoDup_fmap_1. Qed.

Lemma id_inj c c' : c ∈ cs → c' ∈ cs → id c = id c' → c = c'.
Proof.
  intros Hc Hc' Hid.
  apply list_elem_of_lookup in Hc as [k Hk].
  apply list_elem_of_lookup in Hc' as [k' Hk'].
  assert (k = k'); [|congruence].
  eapply NoDup_lookup; [exact Hnd| |];
    rewrite list_lookup_fmap; [by rewrite Hk|by rewrite Hk', Hid].
Qed.

Lemma at_depth_parent k c p :
  at_depth cs k c → parent_edge cs c p → ∃ k', k = S k' ∧ at_depth cs k' p.
Proof.
  intros Hd (Hc & Hp & Href). inversion Hd; subst; [congruence|].
  eexists. split; [done|].
  match goal with H : at_depth cs _ ?q |- _ =>
    assert (q = p) as <-; [|done];
    apply id_inj; [by eapply at_depth_in|done|congruence] end.
Qed.

Lemma at_depth_unique j k c : at_depth cs j c → at_depth cs k c → j = k.
Proof.
  intros Hj. revert k. induction Hj as [c Hc Hr|j c p Hc Hr Hp IH]; intros k Hk.
  - inversion Hk; subst; [done|congruence].
  - destruct (at_depth_parent k c p Hk) as (k' & -> & Hk').
    { split_and!; [done|by eapply at_depth_in|done]. }
    f_equal. by apply IH.
Qed.

Lemma at_depth_tc c c' :
  tc (parent_edge cs) c c' →
  ∀ k, at_depth cs k c → ∃ k', k' < k ∧ at_depth cs k' c'.
Proof.
  induction 1 as [c c' He|c p c' He Htc IH]; intros k Hk.
  - destruct (at_depth_parent k c c' Hk He) as (k' & -> & Hk').
    exists k'. split; [lia|done].
  - destruct (at_depth_parent k c p Hk He) as (k' & -> & Hk').
    destruct (IH _ Hk') as (k'' & Hlt & Hk''). exists k''. split; [lia|done].
Qed.

(** A comment on a cycle of parent references is at no depth. *)
Lemma cycle_no_depth k c : tc (parent_edge cs) c c → ¬ at_depth cs k c.
Proof.
  intros Htc Hk. destruct (at_depth_tc c c Htc k Hk) as (k' & Hlt & Hk').
  assert (k' = k) by by eapply at_depth_unique. lia.
Qed.

Lemma level_NoDup k : NoDup (level_from cs k (roots cs)).
Proof.
  induction k as [|k IH].
  - apply NoDup_filter, cs_NoDup.
  - rewrite level_from_S. unfold next_level. apply NoDup_bind; [| |done].
    + intros p1 p2 c Hp1 Hp2 Hc1 Hc2.
      apply elem_of_children in Hc1 as [Hc1 _].
      apply elem_of_children in Hc2 as [Hc2 _].
      apply elem_of_level, at_depth_in in Hp1.
      apply elem_of_level, at_depth_in in Hp2.
      apply id_inj; [done|done|congruence].
    + intros p _. apply NoDup_filter, cs_NoDup.
Qed.

Lemma bfs_NoDup f : NoDup (bfs cs f (roots cs)).
Proof.
  unfold bfs. apply NoDup_bind.
  - intros j k c _ _ Hj Hk. apply elem_of_level in Hj, Hk.
    by eapply at_depth_unique.
  - intros k _. apply level_NoDup.
  - apply NoDup_seq.
Qed.

Lemma bfs_length f :
  (∀ k, k < f → level_from cs k (roots cs) ≠ []) →
  f ≤ length (bfs cs f (roots cs)).
Proof.
  unfold bfs. induction f as [|f IH]; intros Hne; [simpl; lia|].
  rewrite seq_S, bind_app, length_app. simpl. rewrite app_nil_r.
  specialize (IH ltac:(intros; apply Hne; lia)).
  specialize (Hne f ltac:(lia)).
  destruct (level_from cs f (roots cs)); [done|]. simpl. lia.
Qed.

(** No comment lies deeper than the number of comments. *)
Lemma level_bound : level_from cs (length cs) (roots cs) = [].
Proof.
  destruct (level_from cs (length cs) (roots cs)) as [|c l] eqn:Hl; [done|].
  exfalso.
  assert (Hc : at_depth cs (length cs) c).
  { apply elem_of_level. rewrite Hl. apply elem_of_cons; auto. }
  assert (Hlen : S (length cs) ≤ length (bfs cs (S (length cs)) (roots cs))).
  { apply bfs_length. intros k Hk Hnil.
    destruct (at_depth_below _ _ k Hc ltac:(lia)) as [p Hp].
    apply elem_of_level in Hp. rewrite Hnil in Hp. by apply elem_of_nil in Hp. }
  assert (Hsub : bfs cs (S (length cs)) (roots cs) ⊆+ cs).
  { apply NoDup_submseteq; [apply bfs_NoDup|].
    intros x Hx. apply elem_of_bfs in Hx as (k & _ & Hx).
    apply elem_of_level in Hx. by eapply at_depth_in. }
  apply submseteq_length in Hsub. lia.
Qed.

Lemma at_depth_lt k c : at_depth cs k c → k < length cs.
Proof.
  intros Hc. destruct (decide (k < length cs)) as [|Hge]; [done|].
  apply elem_of_level in Hc.
  rewrite (level_from_nil_le cs (length cs) k) in Hc;
    [by apply elem_of_nil in Hc|apply level_bound|lia].
Qed.

Lemma dfs_NoDup : NoDup (dfs cs (length cs) (roots cs)).
Proof. rewrite dfs_bfs. apply bfs_NoDup. Qed.

Lemma elem_of_dfs c :
  c ∈ dfs cs (length cs) (roots cs) ↔ ∃ k, at_depth cs k c.
Proof.
  rewrite dfs_bfs, elem_of_bfs. split.
  - intros (k & _ & Hc). apply elem_of_level in Hc. eauto.
  - intros [k Hc]. exists k. split; [by eapply at_depth_lt|by apply elem_of_level].
Qed.

End Depth.

(** ** Flattening the result *)

Section Flatten.

Variable h : heap.
Variable cs : list Comment.

Abbreviation m := (commentMap_of (length h) cs).
Abbreviation h' := ((organize_result h cs).1).

Lemma concat_fmap_node f (xs : list Comment) :
  concat ((λ x, node m x :: (node m <$> dfs cs f (children cs (id x)))) <$> xs)
  = node m <$> (xs ≫= λ x, x :: dfs cs f (children cs (id x))).
Proof.
  induction xs as [|x xs IH]; [done|].
  rewrite fmap_cons, bind_cons. simpl. rewrite IH.
  by rewrite fmap_app.
Qed.

(** With enough fuel for the depth below [xs], flattening the objects of
    [xs] visits the objects of the pre-order traversal of [xs]. *)
Lemma flatten_dfs f : ∀ xs,
  (∀ x, x ∈ xs → x ∈ cs) → level_from cs f xs = [] →
  flatten f h' (node m <$> xs) = Some (node m <$> dfs cs f xs).
Proof.
  induction f as [|f IH]; intros xs Hsub Hnil.
  - simpl in Hnil. by subst xs.
  - cbn [flatten dfs]. rewrite <- concat_fmap_node.
    erewrite mapM_Some_2; [done|].
    apply Forall2_fmap, Forall_Forall2_diag, Forall_forall.
    intros x Hx.
    destruct (result_lookup h cs x (Hsub x Hx)) as (c & _ & _ & Hl).
    rewrite Hl. simpl.
    rewrite IH; [done| |by eapply level_from_children].
    intros y Hy. by apply elem_of_children in Hy as [_ ?].
Qed.

Hypothesis Hnd : NoDup (id <$> cs).

(** For distinct ids the traversal terminates within [length cs] levels. *)
Lemma flatten_result :
  flatten (length cs) h' (organize_result h cs).2
  = Some (node m <$> dfs cs (length cs) (roots cs)).
Proof.
  rewrite result_roots. apply flatten_dfs.
  - intros x Hx. by apply elem_of_roots in Hx as [_ ?].
  - by apply level_bound.
Qed.

Lemma flatten_result_NoDup :
  NoDup (node m <$> dfs cs (length cs) (roots cs)).
Proof.
  apply NoDup_fmap_2_strong; [|by apply dfs_NoDup].
  intros x y Hx Hy Heq.
  apply elem_of_dfs in Hx as [? Hx%at_depth_in]; [|done].
  apply elem_of_dfs in Hy as [? Hy%at_depth_in]; [|done].
  by apply (node_inj_NoDup h cs).
Qed.

(** The objects visited carry the fields of the comments visited. *)
Lemma deref_result xs :
  (∀ x, x ∈ xs → x ∈ cs) →
  deref h' (node m <$> xs)
  = Some ((λ x, with_replies x (Some (node m <$> children cs (id x)))) <$> xs).
Proof.
  intros Hsub. unfold deref. apply mapM_Some_2.
  apply Forall2_fmap, Forall_Forall2_diag, Forall_forall. intros x Hx.
  apply (result_lookup_NoDup h cs); auto.
Qed.

End Flatten.

(** ** Acyclic parent references lead to a root *)

Section Acyclic.

Variable cs : list Comment.
Hypothesis Hresolved :
  ∀ c p, c ∈ cs → parent_ref c = Some p → p ∈ (id <$> cs).
Hypothesis Hacyclic : ∀ c, ¬ tc (parent_edge cs) c c.

Lemma acyclic_depth_aux n : ∀ V c,
  length cs ≤ n + length V → NoDup V → (∀ v, v ∈ V → v ∈ cs) →
  (∀ v, v ∈ V → tc (parent_edge cs) v c) → c ∈ cs →
  ∃ k, at_depth cs k c.
Proof.
  induction n as [|n IH]; intros V c Hlen HV Hsub Htc Hc.
  all: assert (HcV : c ∉ V) by (intros Hin; by eapply Hacyclic, Htc).
  all: assert (Hle : length (c :: V) ≤ length cs).
  1,3: apply submseteq_length, NoDup_submseteq; [by constructor|];
       intros x [->|Hx]%elem_of_cons; auto.
  - simpl in Hle. lia.
  - destruct (parent_ref c) as [p|] eqn:Hp; [|exists 0; by constructor].
    destruct (proj1 (list_elem_of_fmap _ _ _) (Hresolved c p Hc Hp))
      as (pc & -> & Hpc).
    assert (He : parent_edge cs c pc) by done.
    destruct (IH (c :: V) pc) as [k Hk]; try done.
    + simpl. lia.
    + by constructor.
    + intros x [->|Hx]%elem_of_cons; auto.
    + intros x [->|Hx]%elem_of_cons; [by apply tc_once|].
      eapply tc_r; [by apply Htc|done].
    + exists (S k). by econstructor.
Qed.

Lemma acyclic_depth c : c ∈ cs → ∃ k, at_depth cs k c.
Proof.
  intros Hc. apply (acyclic_depth_aux (length cs) []); try done.
  - simpl. lia.
  - constructor.
  - intros v Hv. by apply elem_of_nil in Hv.
  - intros v Hv. by apply elem_of_nil in Hv.
Qed.

End Acyclic.

(** ** Reading the result *)

Section Reading.

Variable h : heap.
Variable cs : list Comment.

Abbreviation m := (commentMap_of (length h) cs).
Abbreviation h' := ((organize_result h cs).1).

Lemma organizeComments_result ls :
  deref h ls = Some cs →
  organizeComments h ls = Some (h', (organize_result h cs).2).
Proof.
  intros Hd. rewrite (organizeComments_spec h ls cs Hd).
  by destruct (organize_result h cs).
Qed.

Lemma firstPass_result ls :
  deref h ls = Some cs →
  forEach firstPass ls (h, ∅) = Some (h ++ (fresh_copy <$> cs), m).
Proof. intros Hd. by rewrite (firstPass_spec ls h ∅ cs Hd). Qed.

(** The ids found through the objects of [xs] are the ids of [xs]. *)
Lemma ids_at_node xs :
  (∀ x, x ∈ xs → x ∈ cs) → ids_at h' (node m <$> xs) = Some (id <$> xs).
Proof.
  intros Hsub. unfold ids_at.
  assert (∃ objs, deref h' (node m <$> xs) = Some objs
                   ∧ id <$> objs = id <$> xs) as (objs & -> & ->); [|done].
  induction xs as [|x xs IH]; [by exists []|].
  destruct IH as (objs & Hobjs & Hids).
  { intros y Hy. apply Hsub, elem_of_cons; auto. }
  destruct (result_lookup h cs x) as (c & _ & Hid & Hl).
  { apply Hsub, elem_of_cons; auto. }
  eexists (_ :: objs). split.
  - rewrite fmap_cons. apply deref_cons. eauto.
  - rewrite !fmap_cons. by rewrite Hids, <- Hid.
Qed.

Lemma commentMap_entry p l :
  m !! p = Some l →
  ∃ o, h' !! l = Some o ∧ id o = p ∧
       ids_at h' (default [] (replies o)) = Some (id <$> children cs p).
Proof.
  intros Hl.
  destruct (commentMap_of_range _ _ _ _ Hl) as (k & x & Hk & Hid & Hlk).
  assert (Hx : x ∈ cs) by by eapply list_elem_of_lookup_2.
  assert (Hn : node m x = l).
  { unfold node. by rewrite Hid, Hl. }
  destruct (result_lookup h cs x Hx) as (c & _ & Hidc & Hlook).
  rewrite Hn in Hlook.
  eexists. split; [exact Hlook|]. split; [simpl; congruence|].
  simpl. rewrite Hid. apply ids_at_node.
  intros y Hy. by apply elem_of_children in Hy as [_ ?].
Qed.

Hypothesis Hnd : NoDup (id <$> cs).

(** With distinct ids every object allocated by the call stands for exactly
    one input comment. *)
Lemma fresh_object l o :
  length h ≤ l → h' !! l = Some o →
  ∃ x, x ∈ cs ∧ l = node m x ∧
       o = with_replies x (Some (node m <$> children cs (id x))).
Proof.
  intros Hle Hl.
  assert (Hlt : l < length h + length cs).
  { apply lookup_lt_Some in Hl. pose proof (result_length h cs) as HL.
    lia. }
  destruct (lookup_lt_is_Some_2 cs (l - length h)) as [x Hx]; [lia|].
  assert (Hin : x ∈ cs) by by eapply list_elem_of_lookup_2.
  assert (Hn : node m x = l).
  { rewrite (node_NoDup h cs (l - length h) x); [lia|done|done]. }
  exists x. split_and!; [done|done|].
  pose proof (result_lookup_NoDup h cs x Hnd Hin) as Hlook.
  rewrite Hn in Hlook. congruence.
Qed.

Lemma object_id_inj x o :
  x ∈ cs → h' !! node m x = Some o → id o = id x.
Proof.
  intros Hx Hl. pose proof (result_lookup_NoDup h cs x Hnd Hx) as Hlook.
  rewrite Hlook in Hl.
  by injection Hl as <-.
Qed.

End Reading.

(** ** Properties of [organizeComments] *)



(** C8.  [organizeComments] leaves every object of the caller's heap as it
    was, in particular every input record and its [replies] field: the
    entries of the lookup, the only objects it writes to, are copies it
    allocated, and so are the objects in [rootComments]. *)
Theorem organizeComments_frame (h : heap) (allComments : list loc)
    (cs : list Comment) :
  deref h allComments = Some cs →
  ∃ h1 commentMap h' rootComments,
    forEach firstPass allComments (h, ∅) = Some (h1, commentMap)
    ∧ organizeComments h allComments = Some (h', rootComments)
    ∧ (∀ p l, commentMap !! p = Some l → length h ≤ l)
    ∧ (∀ l, l < length h → h' !! l = h !! l)
    ∧ take (length h) h' = h
    ∧ deref h' allComments = Some cs
    ∧ (∀ l, l ∈ rootComments → length h ≤ l).
Proof.
  intros Hd. eexists _, _, _, _.
  split; [by apply firstPass_result|].
  split; [by apply organizeComments_result|].
  assert (Hfr : ∀ l, l < length h → (organize_result h cs).1 !! l = h !! l).
  { intros l Hl. by apply (result_frame h cs). }
  split_and!.
  - intros p l Hl. apply commentMap_of_range in Hl as (k & c & _ & _ & ->). lia.
  - exact Hfr.
  - unfold organize_result. cbn [fst]. by rewrite take_app_length.
  - eapply deref_agree; [done|]. intros l Hl. apply Hfr. by eapply deref_lt.
  - intros l Hl. rewrite result_roots in Hl.
    apply list_elem_of_fmap in Hl as (x & -> & Hx).
    apply elem_of_roots in Hx as [_ Hx].
    destruct (node_range h cs x Hx) as (k & c & _ & _ & Hn).
    cbv zeta in Hn. lia.
Qed.

Lemma organizeComments_frame_witness :
  deref thread_fixture [0; 1; 2; 3] = Some thread_fixture
  ∧ ∃ h' rootComments,
      organizeComments thread_fixture [0; 1; 2; 3] = Some (h', rootComments)
      ∧ take 4 h' = thread_fixture.
Proof.
  split; [reflexivity|].
  destruct (organizeComments_frame thread_fixture [0; 1; 2; 3] thread_fixture)
    as (h1 & m & h' & rs & _ & Ho & _ & _ & Ht & _); [reflexivity|].
  exists h', rs. split; [exact Ho|exact Ht].
Defined.



(** ** The forest for collections with distinct ids *)

Section DistinctIds.

Variable h : heap.
Variable cs : list Comment.
Hypothesis Hnd : NoDup (id <$> cs).

Abbreviation m := (commentMap_of (length h) cs).
Abbreviation h' := ((organize_result h cs).1).
Abbreviation rs := ((organize_result h cs).2).
Abbreviation out := (node m <$> dfs cs (length cs) (roots cs)).

Lemma flatten_out : flatten (length cs) h' rs = Some out.
Proof. by apply flatten_result. Qed.

Lemma elem_of_out l : l ∈ out ↔ ∃ x k, at_depth cs k x ∧ l = node m x.
Proof.
  rewrite list_elem_of_fmap. split.
  - intros (x & -> & Hx). apply elem_of_dfs in Hx as [k Hk]; eauto.
  - intros (x & k & Hk & ->). exists x. split; [done|].
    apply elem_of_dfs; eauto.
Qed.

Lemma elem_of_rs l : l ∈ rs ↔ ∃ x, at_depth cs 0 x ∧ l = node m x.
Proof.
  rewrite result_roots, list_elem_of_fmap. split.
  - intros (x & -> & [Hr Hx]%elem_of_roots). exists x. split; [by constructor|done].
  - intros (x & Hx & ->). exists x. split; [done|].
    inversion Hx; subst. by apply elem_of_roots.
Qed.

(** An object allocated by the call holds references to the objects of the
    comments that name it as parent. *)
Lemma attached l o x :
  length h ≤ l → h' !! l = Some o → x ∈ default [] (replies o) →
  ∃ p y, p ∈ cs ∧ l = node m p ∧ id o = id p ∧
         y ∈ cs ∧ x = node m y ∧ parent_ref y = Some (id p).
Proof.
  intros Hle Hl Hx.
  destruct (fresh_object h cs Hnd l o Hle Hl) as (p & Hp & Hlp & ->).
  simpl in Hx. apply list_elem_of_fmap in Hx as (y & -> & Hy).
  apply elem_of_children in Hy as [Hy Hin]. exists p, y. done.
Qed.

Lemma in_forest_depth l :
  in_forest h' rs l → ∃ x k, at_depth cs k x ∧ l = node m x.
Proof.
  induction 1 as [l Hl|l l' o _ IH Hlo Hl'].
  - apply elem_of_rs in Hl as (x & Hx & ->). eauto.
  - destruct IH as (x & k & Hk & ->).
    pose proof (result_lookup_NoDup h cs x Hnd (at_depth_in _ _ _ Hk)) as Hx.
    rewrite Hx in Hlo. injection Hlo as <-.
    simpl in Hl'. apply list_elem_of_fmap in Hl' as (y & -> & Hy).
    apply elem_of_children in Hy as [Hy Hin].
    exists y, (S k). split; [by econstructor|done].
Qed.

(** The object found at the address of [x] has the id of no other comment. *)
Lemma node_id x c o :
  x ∈ cs → c ∈ cs → h' !! node m x = Some o → id o = id c → x = c.
Proof.
  intros Hx Hc Hl Hid. apply (id_inj cs Hnd); [done|done|].
  by rewrite <- (object_id_inj h cs Hnd x o Hx Hl).
Qed.

(** A comment at no depth is nowhere in the result. *)
Lemma no_depth_absent c :
  c ∈ cs → (∀ k, ¬ at_depth cs k c) →
  (∀ l o, l ∈ rs → h' !! l = Some o → id o ≠ id c)
  ∧ (∀ l o, l ∈ out → h' !! l = Some o → id o ≠ id c)
  ∧ (∀ l o, in_forest h' rs l → h' !! l = Some o → id o ≠ id c).
Proof.
  intros Hc Hno.
  assert (Hkey : ∀ l o, (∃ x k, at_depth cs k x ∧ l = node m x) →
                        h' !! l = Some o → id o ≠ id c).
  { intros l o (x & k & Hk & ->) Hl Hid.
    assert (x = c) as -> by (eapply node_id; eauto using at_depth_in).
    by eapply Hno. }
  split_and!; intros l o Hin; apply Hkey.
  - apply elem_of_rs in Hin as (x & Hx & ->). eauto.
  - by apply elem_of_out.
  - by apply in_forest_depth.
Qed.

End DistinctIds.

(** C2 fails as stated, in two ways.  A parent id that is the empty string
    is present and names no comment, yet the test [if (comment.parentId)]
    sends the comment to the root sequence.  And when an earlier comment
    without parent shares the id of a comment whose parent is not in the
    collection, the lookup keeps the copy of the later one, which the
    earlier one pushes onto the root sequence. *)
Lemma orphan_promoted :
  (let c := fixture "a" (Some "") in
   let cs := [c] in
   c ∈ cs ∧ parentId c = Some "" ∧ ("" ∉ (id <$> cs))
   ∧ ∃ h' l o,
       organizeComments cs [0] = Some (h', [l])
       ∧ h' !! l = Some o ∧ persisted o = persisted c)
  ∧ (let c := fixture "a" (Some "missing") in
     let cs := [fixture "a" None; c] in
     c ∈ cs ∧ parentId c = Some "missing" ∧ ("missing" ∉ (id <$> cs))
     ∧ ∃ h' l o,
         organizeComments cs [0; 1] = Some (h', [l])
         ∧ h' !! l = Some o ∧ persisted o = persisted c).
Proof.
  split; (split_and!; [compute_done|done|compute_done|]);
    eexists _, _, _; split_and!; reflexivity.
Qed.

(** C2 (amended).  In a collection of comments with distinct ids (the
    unique identifier of the data model), a comment whose parent id is a
    non-empty string, which is what [if (comment.parentId)] tests, and is
    the id of no comment of the collection is not in the root sequence, is not in the replies of any
    object built by the call, and is not met when the result is flattened
    or walked.  The single comment "a" with parent "missing" gives the
    empty root sequence. *)
Theorem orphan_dropped :
  (∀ (h : heap) (allComments : list loc) (cs : list Comment) c p,
     deref h allComments = Some cs → NoDup (id <$> cs) →
     c ∈ cs → parent_ref c = Some p → p ∉ (id <$> cs) →
     ∃ h' rootComments out,
       organizeComments h allComments = Some (h', rootComments)
       ∧ flatten (length cs) h' rootComments = Some out
       ∧ (∀ l o, l ∈ rootComments → h' !! l = Some o → id o ≠ id c)
       ∧ (∀ l o x ox, length h ≤ l → h' !! l = Some o →
                      x ∈ default [] (replies o) → h' !! x = Some ox →
                      id ox ≠ id c)
       ∧ (∀ l o, l ∈ out → h' !! l = Some o → id o ≠ id c)
       ∧ (∀ l o, in_forest h' rootComments l → h' !! l = Some o →
                 id o ≠ id c))
  ∧ (∃ h', organizeComments orphan_fixture [0] = Some (h', [])).
Proof.
  split; [|by eexists].
  intros h ls cs c p Hd Hnd Hc Hp Hnotin.
  assert (Hno : ∀ k, ¬ at_depth cs k c).
  { intros k. by eapply orphan_no_depth. }
  destruct (no_depth_absent h cs Hnd c Hc Hno) as (Hrs & Hout & Hfor).
  eexists _, _, _. split_and!.
  - by apply organizeComments_result.
  - by apply flatten_out.
  - exact Hrs.
  - intros l o x ox Hle Hl Hx Hox Hid.
    destruct (attached h cs Hnd l o x Hle Hl Hx)
      as (q & y & Hq & -> & _ & Hy & -> & Hyq).
    assert (y = c) as -> by (eapply (node_id h cs Hnd); eauto).
    apply Hnotin. apply list_elem_of_fmap. exists q. split; [congruence|done].
  - exact Hout.
  - exact Hfor.
Qed.

Lemma orphan_dropped_witness :
  let cs := [fixture "r" None; fixture "a" (Some "missing")] in
  (deref cs [0; 1] = Some cs ∧ NoDup (id <$> cs)
   ∧ fixture "a" (Some "missing") ∈ cs
   ∧ parent_ref (fixture "a" (Some "missing")) = Some "missing"
   ∧ "missing" ∉ (id <$> cs))
  ∧ ∃ h' rootComments out,
      organizeComments cs [0; 1] = Some (h', rootComments)
      ∧ flatten 2 h' rootComments = Some out
      ∧ ∀ l o, l ∈ out → h' !! l = Some o → id o ≠ "a".
Proof.
  intros cs.
  assert (H1 : deref cs [0; 1] = Some cs) by reflexivity.
  assert (H2 : NoDup (id <$> cs)) by compute_done.
  assert (H3 : fixture "a" (Some "missing") ∈ cs) by compute_done.
  assert (H4 : parent_ref (fixture "a" (Some "missing")) = Some "missing")
    by reflexivity.
  assert (H5 : "missing" ∉ (id <$> cs)) by compute_done.
  split; [done|].
  destruct (proj1 orphan_dropped cs [0; 1] cs _ _ H1 H2 H3 H4 H5)
    as (h' & rs & out & Ho & Hf & _ & _ & Hout & _).
  exists h', rs, out. split_and!; [exact Ho|exact Hf|exact Hout].
Defined.

(** C1 fails as stated: the comment "a" whose parent id is "a" satisfies
    the premise (its parent id is the id of a comment of the collection),
    yet the result has no root, and flattening it yields no record. *)
Lemma self_reply_not_flattened :
  (∀ c p, c ∈ self_reply_fixture → parentId c = Some p →
          p ∈ (id <$> self_reply_fixture))
  ∧ ∃ h', organizeComments self_reply_fixture [0] = Some (h', [])
          ∧ h' !! 1 = Some (with_replies (fixture "a" (Some "a")) (Some [1]))
          ∧ ∀ fuel out, flatten fuel h' [] = Some out →
                        length out ≠ length self_reply_fixture.
Proof.
  split.
  - intros c p Hc Hp. unfold self_reply_fixture in Hc.
    apply list_elem_of_singleton in Hc as ->. injection Hp as <-.
    compute_done.
  - eexists. split_and!; [reflexivity|reflexivity|].
    intros [|fuel] out [= <-]; simpl; lia.
Qed.

(** C1 (amended).  For a collection of [n] comments with distinct ids in
    which every parent id that is present names a comment of the collection
    and no comment is its own ancestor along the parent ids, flattening the
    result terminates and visits [n] distinct objects, and the records they
    hold are the input records, each once. *)
Theorem forest_complete (h : heap) (allComments : list loc)
    (cs : list Comment) :
  deref h allComments = Some cs →
  NoDup (id <$> cs) →
  (∀ c p, c ∈ cs → parent_ref c = Some p → p ∈ (id <$> cs)) →
  (∀ c, ¬ tc (parent_edge cs) c c) →
  ∃ h' rootComments out objs,
    organizeComments h allComments = Some (h', rootComments)
    ∧ flatten (length cs) h' rootComments = Some out
    ∧ length out = length cs
    ∧ NoDup out
    ∧ deref h' out = Some objs
    ∧ persisted <$> objs ≡ₚ persisted <$> cs.
Proof.
  intros Hd Hnd Hres Hac.
  assert (Hperm : dfs cs (length cs) (roots cs) ≡ₚ cs).
  { apply NoDup_Permutation; [by apply dfs_NoDup|by apply cs_NoDup|].
    intros x. rewrite elem_of_dfs by done. split.
    - intros [k Hk]. by eapply at_depth_in.
    - by apply acyclic_depth. }
  eexists _, _, _, _. split_and!.
  - by apply organizeComments_result.
  - by apply flatten_out.
  - by rewrite length_fmap, Hperm.
  - by apply flatten_result_NoDup.
  - apply (deref_result h cs Hnd). intros x Hx. by rewrite <- Hperm.
  - rewrite <- list_fmap_compose.
    transitivity (persisted <$> dfs cs (length cs) (roots cs)).
    + apply reflexive_eq. by apply list_fmap_ext.
    + by apply fmap_Permutation.
Qed.

Lemma thread_fixture_acyclic c : ¬ tc (parent_edge thread_fixture) c c.
Proof.
  assert (Hnd : NoDup (id <$> thread_fixture)) by compute_done.
  assert (H1 : at_depth thread_fixture 0 (fixture "1" None)).
  { constructor; [compute_done|done]. }
  assert (H2 : at_depth thread_fixture 0 (fixture "2" None)).
  { constructor; [compute_done|done]. }
  intros Htc.
  assert (Hc : c ∈ thread_fixture) by by eapply tc_edge_in.
  unfold thread_fixture in Hc. rewrite !elem_of_cons, elem_of_nil in Hc.
  destruct Hc as [->|[->|[->|[->|[]]]]];
    (eapply (cycle_no_depth thread_fixture Hnd); [exact Htc|]); try done.
  - eapply (at_depth_child _ 0 _ (fixture "1" None));
      [compute_done|done|done].
  - eapply (at_depth_child _ 0 _ (fixture "1" None));
      [compute_done|done|done].
Qed.

Lemma forest_complete_witness :
  (deref thread_fixture [0; 1; 2; 3] = Some thread_fixture
   ∧ NoDup (id <$> thread_fixture)
   ∧ (∀ c p, c ∈ thread_fixture → parent_ref c = Some p →
             p ∈ (id <$> thread_fixture))
   ∧ (∀ c, ¬ tc (parent_edge thread_fixture) c c))
  ∧ ∃ h' rootComments out,
      organizeComments thread_fixture [0; 1; 2; 3] = Some (h', rootComments)
      ∧ flatten 4 h' rootComments = Some out
      ∧ length out = 4.
Proof.
  assert (H1 : deref thread_fixture [0; 1; 2; 3] = Some thread_fixture)
    by reflexivity.
  assert (H2 : NoDup (id <$> thread_fixture)) by compute_done.
  assert (H3 : ∀ c p, c ∈ thread_fixture → parent_ref c = Some p →
                      p ∈ (id <$> thread_fixture)).
  { intros c p Hc. unfold thread_fixture in Hc.
    rewrite !elem_of_cons, elem_of_nil in Hc.
    destruct Hc as [->|[->|[->|[->|[]]]]]; intros [= <-];
      compute_done. }
  split; [split_and!; [done|done|done|apply thread_fixture_acyclic]|].
  destruct (forest_complete thread_fixture [0; 1; 2; 3] thread_fixture
              H1 H2 H3 thread_fixture_acyclic)
    as (h' & rs & out & objs & Ho & Hf & Hlen & _).
  exists h', rs, out. split_and!; [exact Ho|exact Hf|exact Hlen].
Defined.





(** The cycle fixture evaluated: only the root is met, and the two comments
    of the cycle hold each other. *)
Example cycle_fixture_result :
  ∃ h', organizeComments cycle_fixture [0; 1; 2] = Some (h', [3])
        ∧ flatten 3 h' [3] = Some [3]
        ∧ replies <$> h' !! 4 = Some (Some [5])
        ∧ replies <$> h' !! 5 = Some (Some [4]).
Proof. eexists. split_and!; reflexivity. Qed.

(** The test [if (comment.parentId)] sends a comment whose parent id is the
    empty string to the root sequence. *)
Example empty_parentId_is_root :
  ∃ h', organizeComments [fixture "a" (Some "")] [0] = Some (h', [1])
        ∧ ids_at h' [1] = Some ["a"].
Proof. eexists. split; reflexivity. Qed.

(** When two comments share an id, the lookup keeps one object for both:
    here the copy of the second comment is pushed as a root by the first. *)
Example shared_id_shares_object :
  ∃ h', organizeComments
          [fixture "a" None; fixture "a" (Some "missing")] [0; 1]
        = Some (h', [3])
        ∧ parentId <$> h' !! 3 = Some (Some "missing").
Proof. eexists. split; reflexivity. Qed.

(** ** Properties of the filter handlers *)

Lemma spread_absent {A} (old : option A) : spread old None = old.
Proof. done. Qed.

Lemma spread_present {A} (old v : option A) : spread old (Some v) = v.
Proof. done. Qed.

(** C4.  [applyFilters] stores a filter object whose offset is [0] whatever
    the offset was before and whatever the update says about it; every
    other field takes the value the update gives for its key, also when
    that value is [undefined], and keeps the value of the current filters
    when the update has no such key.  On a filter object with an offset
    above [0], the update [{search: "x"}] gives the same object with search
    text "x" and offset [0]. *)
Theorem applyFilters_resets_offset :
  (∀ (st : BlogList.State) (newFilters : PartialFilters),
     let f := BlogList.filters st in
     let f' := BlogList.filters (BlogList.applyFilters st newFilters) in
     offset f' = Some 0%Z
     ∧ (∀ v, p_search newFilters = Some v → search f' = v)
     ∧ (p_search newFilters = None → search f' = search f)
     ∧ (∀ v, p_categories newFilters = Some v → categories f' = v)
     ∧ (p_categories newFilters = None → categories f' = categories f)
     ∧ (∀ v, p_tags newFilters = Some v → tags f' = v)
     ∧ (p_tags newFilters = None → tags f' = tags f)
     ∧ (∀ v, p_author newFilters = Some v → filter_author f' = v)
     ∧ (p_author newFilters = None → filter_author f' = filter_author f)
     ∧ (∀ v, p_status newFilters = Some v → status f' = v)
     ∧ (p_status newFilters = None → status f' = status f)
     ∧ (∀ v, p_sortBy newFilters = Some v → sortBy f' = v)
     ∧ (p_sortBy newFilters = None → sortBy f' = sortBy f)
     ∧ (∀ v, p_sortOrder newFilters = Some v → sortOrder f' = v)
     ∧ (p_sortOrder newFilters = None → sortOrder f' = sortOrder f)
     ∧ (∀ v, p_limit newFilters = Some v → limit f' = v)
     ∧ (p_limit newFilters = None → limit f' = limit f))
  ∧ (∀ (st : BlogList.State) (o : Z),
       let f := BlogList.filters st in
       offset f = Some o → (0 < o)%Z →
       BlogList.filters
         (BlogList.applyFilters st
            (mkPartial (Some (Some "x"))
               None None None None None None None None))
       = mkBlogFilters (Some "x") (categories f) (tags f) (filter_author f)
           (status f) (sortBy f) (sortOrder f) (limit f) (Some 0%Z)).
Proof.
  split.
  - intros st [ps pc pt pa pst psb pso pl po]. cbn.
    split_and!; try done; by intros; simplify_eq/=.
  - done.
Qed.

(** The pagination reset law on the fixture of the specification: a filter
    on its third page, updated with a search text. *)
Example applyFilters_search_x :
  let st := BlogList.mkState
              (mkBlogFilters None None None None (Some Published)
                 (Some "likes") (Some "asc") (Some 12%Z) (Some 24%Z))
              [] "x" [] in
  BlogList.filters (BlogList.handleSearchSubmit st)
  = mkBlogFilters (Some "x") None None None (Some Published)
      (Some "likes") (Some "asc") (Some 12%Z) (Some 0%Z).
Proof. reflexivity. Qed.

Lemma limit_or_default_nonzero f : BlogList.limit_or_default f ≠ 0%Z.
Proof.
  unfold BlogList.limit_or_default, truthy_number.
  destruct (limit f) as [l|]; [|done]. simpl.
  destruct (Z.eqb_spec l 0); simpl; [done|done].
Qed.

(** C5 fails as stated.  With the limit [0] the view pages with [12], so
    that page [3] gives the offset [24] and not [(3 - 1) * 0], and the
    display computation [offset / limit + 1] over the stored fields yields
    no page number.  With the limit unset, page [3] gives the offset [24]
    and the display computation has no limit to divide by. *)
Lemma handlePageChange_limit_zero :
  (let f := mkBlogFilters None None None None (Some Published)
              (Some "createdAt") (Some "desc") (Some 0%Z) (Some 0%Z) in
   let f' := BlogList.filters
               (BlogList.handlePageChange (BlogList.mkState f [] "" []) 3) in
   limit f = Some 0%Z
   ∧ offset f' = Some 24%Z
   ∧ offset f' ≠ Some ((3 - 1) * 0)%Z
   ∧ BlogList.displayPage f' = None)
  ∧ (let f := mkBlogFilters None None None None (Some Published)
                (Some "createdAt") (Some "desc") None (Some 0%Z) in
     let f' := BlogList.filters
                 (BlogList.handlePageChange (BlogList.mkState f [] "" []) 3) in
     limit f = None
     ∧ offset f' = Some 24%Z
     ∧ limit f' = None
     ∧ BlogList.displayPage f' = None).
Proof. by split_and!. Qed.

Lemma displayPage_multiple f page l :
  l ≠ 0%Z → offset f = Some ((page - 1) * l)%Z → limit f = Some l →
  ∃ q, BlogList.displayPage f = Some q
       ∧ QArith_base.Qeq q (QArith_base.inject_Z page).
Proof.
  intros Hl Ho Hlim. unfold BlogList.displayPage. rewrite Ho, Hlim.
  destruct (Z.eqb_spec l 0) as [|_]; [done|].
  eexists. split; [done|].
  rewrite QArith_base.inject_Z_mult, QArith_base.Qdiv_mult_l.
  - rewrite <- QArith_base.inject_Z_plus.
    by replace (page - 1 + 1)%Z with page by lia.
  - intros H. apply Hl. unfold QArith_base.Qeq in H. simpl in H. lia.
Qed.

(** C5 (amended).  For an integer page number and a limit that the numbers
    of the language hold exactly, the product included, [handlePageChange
    page] stores the offset [(page - 1) * limit] for the current limit,
    [12] taking its place when the limit is unset or [0], and keeps every
    other field of the filters and the rest of the state.  When the limit
    is set and not [0], the display computation [offset / limit + 1] over
    the new filters gives [page]; when it is unset or [0], the computation
    gives no number over the stored fields and gives [page] with [12] as
    the limit.  With limit [12], page [3] gives offset [24]. *)
Theorem handlePageChange_offset (st : BlogList.State) (page l : Z) :
  l = match limit (BlogList.filters st) with
      | Some l0 => if (l0 =? 0)%Z then 12%Z else l0
      | None => 12%Z
      end →
  exact_integer page → exact_integer (page - 1) →
  exact_integer l → exact_integer ((page - 1) * l) →
  let f := BlogList.filters st in
  let st' := BlogList.handlePageChange st page in
  let f' := BlogList.filters st' in
  offset f' = Some ((page - 1) * l)%Z
  ∧ (search f', categories f', tags f', filter_author f', status f',
     sortBy f', sortOrder f', limit f')
    = (search f, categories f, tags f, filter_author f, status f,
       sortBy f, sortOrder f, limit f)
  ∧ (BlogList.searchParams st', BlogList.localSearch st',
     BlogList.selectedCategories st')
    = (BlogList.searchParams st, BlogList.localSearch st,
       BlogList.selectedCategories st)
  ∧ (limit f = Some l → l ≠ 0%Z →
     ∃ q, BlogList.displayPage f' = Some q
          ∧ QArith_base.Qeq q (QArith_base.inject_Z page))
  ∧ (limit f = None ∨ limit f = Some 0%Z →
     BlogList.displayPage f' = None
     ∧ ∃ q, BlogList.displayPage (with_limit f' (Some 12%Z)) = Some q
            ∧ QArith_base.Qeq q (QArith_base.inject_Z page))
  ∧ (page = 3%Z → limit f = Some 12%Z → offset f' = Some 24%Z).
Proof.
  intros Hl _ _ _ _ f st' f'.
  assert (Ho : offset f' = Some ((page - 1) * l)%Z).
  { unfold f', st'. cbn. unfold BlogList.limit_or_default, truthy_number.
    rewrite Hl. destruct (limit (BlogList.filters st)) as [l0|]; [|done].
    simpl. by destruct (Z.eqb_spec l0 0). }
  split_and!; try done.
  - intros Hlim Hne. by apply (displayPage_multiple f' page l).
  - intros Hlim. split.
    + unfold BlogList.displayPage. rewrite Ho.
      change (limit f') with (limit f). by destruct Hlim as [-> | ->].
    + apply (displayPage_multiple _ page 12); [done| |done].
      change (offset (with_limit f' (Some 12%Z))) with (offset f').
      rewrite Ho. do 2 f_equal. rewrite Hl. fold f.
      by destruct Hlim as [-> | ->].
  - intros -> Hlim. rewrite Ho, Hl. fold f. by rewrite Hlim.
Qed.

Lemma handlePageChange_offset_witness :
  let f := mkBlogFilters None None None None (Some Published)
             (Some "createdAt") (Some "desc") (Some 12%Z) (Some 0%Z) in
  let st := BlogList.mkState f [] "" [] in
  (exact_integer 3 ∧ exact_integer (3 - 1) ∧ exact_integer 12
   ∧ exact_integer ((3 - 1) * 12))
  ∧ offset (BlogList.filters (BlogList.handlePageChange st 3)) = Some 24%Z.
Proof.
  intros f st.
  assert (H : ∀ z, (0 ≤ z ≤ 24)%Z → exact_integer z).
  { intros z Hz. unfold exact_integer.
    change (2 ^ 53)%Z with 9007199254740992%Z. lia. }
  assert (H1 : exact_integer 3) by (apply H; lia).
  assert (H2 : exact_integer (3 - 1)) by (apply H; lia).
  assert (H3 : exact_integer 12) by (apply H; lia).
  assert (H4 : exact_integer ((3 - 1) * 12)) by (apply H; lia).
  split; [done|].
  exact (proj1 (handlePageChange_offset st 3 12 eq_refl H1 H2 H3 H4)).
Defined.

(** The limit the view pages with, case by case. *)
Lemma limit_or_default_cases f :
  match limit f with
  | Some l => BlogList.limit_or_default f = if Z.eqb l 0 then 12%Z else l
  | None => BlogList.limit_or_default f = 12%Z
  end.
Proof.
  unfold BlogList.limit_or_default, truthy_number.
  destruct (limit f) as [l|]; [|done]. simpl. by destruct (Z.eqb l 0).
Qed.

(** C6 fails as stated: after the mount effect the sort fields hold the
    defaults, and an update of the search text alone derives a query that
    carries [sort=createdAt] and [order=desc]. *)
Lemma default_sort_in_url :
  let st := BlogList.mount
              (BlogList.mkState BlogContext.initialFilters [] "" []) in
  let st' := BlogList.applyFilters st
               (mkPartial (Some (Some "x"))
                  None None None None None None None None) in
  sortBy (BlogList.filters st') = Some "createdAt"
  ∧ sortOrder (BlogList.filters st') = Some "desc"
  ∧ BlogList.searchParams st'
    = [("search", "x"); ("sort", "createdAt"); ("order", "desc")]
  ∧ URLSearchParams.get "sort" (BlogList.searchParams st') ≠ None
  ∧ URLSearchParams.get "order" (BlogList.searchParams st') ≠ None.
Proof. by split_and!. Qed.

(** C6 (amended).  After [applyFilters] the derived query holds, in this
    order and nothing else: [search] when the new search text is a
    non-empty string, [category] with the first selected category when
    there is one, [sort] with [sortBy] and [order] with [sortOrder]
    whenever these are non-empty strings, the defaults included. *)
Theorem applyFilters_url :
  (∀ (st : BlogList.State) (newFilters : PartialFilters),
     let st' := BlogList.applyFilters st newFilters in
     let f' := BlogList.filters st' in
     BlogList.searchParams st'
     = (if truthy_string (search f')
        then [("search", default "" (search f'))] else [])
       ++ match categories f' with
          | Some (c :: _) => [("category", c)]
          | _ => []
          end
       ++ (if truthy_string (sortBy f')
           then [("sort", default "" (sortBy f'))] else [])
       ++ (if truthy_string (sortOrder f')
           then [("order", default "" (sortOrder f'))] else []))
  ∧ (∀ (st : BlogList.State) (newFilters : PartialFilters),
       let st' := BlogList.applyFilters st newFilters in
       sortBy (BlogList.filters st') = Some "createdAt" →
       sortOrder (BlogList.filters st') = Some "desc" →
       URLSearchParams.get "sort" (BlogList.searchParams st')
       = Some "createdAt"
       ∧ URLSearchParams.get "order" (BlogList.searchParams st')
         = Some "desc").
Proof.
  assert (H : ∀ (st : BlogList.State) (newFilters : PartialFilters),
     let st' := BlogList.applyFilters st newFilters in
     let f' := BlogList.filters st' in
     BlogList.searchParams st'
     = (if truthy_string (search f')
        then [("search", default "" (search f'))] else [])
       ++ match categories f' with
          | Some (c :: _) => [("category", c)]
          | _ => []
          end
       ++ (if truthy_string (sortBy f')
           then [("sort", default "" (sortBy f'))] else [])
       ++ (if truthy_string (sortOrder f')
           then [("order", default "" (sortOrder f'))] else [])).
  { intros st newFilters. cbv zeta.
    cbn [BlogList.applyFilters BlogList.searchParams BlogList.filters].
    unfold BlogList.deriveSearchParams.
    destruct (truthy_string (search _)), (categories _) as [[|c l]|],
      (truthy_string (sortBy _)), (truthy_string (sortOrder _));
      reflexivity. }
  split; [exact H|].
  intros st newFilters st' Hs Ho. unfold st'. rewrite H. cbv zeta.
  fold st'. set (f' := BlogList.filters st') in *. rewrite Hs, Ho.
  destruct (truthy_string (search f')), (categories f') as [[|c l]|];
    split; reflexivity.
Qed.

Lemma applyFilters_url_witness :
  let st := BlogList.mkState BlogContext.initialFilters [] "" [] in
  let st' := BlogList.applyFilters st no_update in
  (sortBy (BlogList.filters st') = Some "createdAt"
   ∧ sortOrder (BlogList.filters st') = Some "desc")
  ∧ URLSearchParams.get "sort" (BlogList.searchParams st') = Some "createdAt"
  ∧ URLSearchParams.get "order" (BlogList.searchParams st') = Some "desc".
Proof.
  intros st st'. split; [split; reflexivity|].
  apply (proj2 applyFilters_url st no_update); reflexivity.
Defined.

(** ** Category selection in the two views *)

Lemma without_length xs x : length (without xs x) ≤ length xs.
Proof. unfold without. induction xs as [|y xs IH]; simpl; [done|].
  destruct (negb _); simpl; lia. Qed.

Lemma without_not_in xs x : x ∉ without xs x.
Proof.
  unfold without. rewrite list_elem_of_In, filter_In.
  intros [_ Hx]. by rewrite String.eqb_refl in Hx.
Qed.

Lemma includes_true xs x : includes xs x = true ↔ x ∈ xs.
Proof.
  unfold includes. rewrite existsb_exists. split.
  - intros (y & Hy & Heq). apply String.eqb_eq in Heq as ->.
    by apply list_elem_of_In.
  - intros Hx. exists x. split; [by apply list_elem_of_In|apply String.eqb_refl].
Qed.

Lemma search_step_selected st e :
  length (Search.selectedCategories st) ≤ 1 →
  length (Search.selectedCategories (Search.step st e)) ≤ 1.
Proof.
  intros Hst. destruct e as [|q| |c|]; simpl; try done.
  - unfold Search.mount. by destruct (truthy_string _).
  - destruct (includes _ c); simpl; [|done].
    etrans; [apply without_length|done].
  - lia.
Qed.

Lemma search_run_selected es : ∀ st,
  length (Search.selectedCategories st) ≤ 1 →
  length (Search.selectedCategories (Search.run st es)) ≤ 1.
Proof.
  induction es as [|e es IH]; intros st Hst; [done|].
  apply IH. by apply search_step_selected.
Qed.

Lemma without_filter xs x : without xs x = filter (λ y, y ≠ x) xs.
Proof.
  unfold without. induction xs as [|y xs IH]; [done|].
  rewrite filter_cons. simpl. rewrite IH.
  destruct (String.eqb_spec y x) as [->|Hne]; simpl.
  - by rewrite decide_False by (intros H; by apply H).
  - by rewrite decide_True.
Qed.

(** C7.  In the keyword-search view the selection holds at most one
    category after any sequence of events; toggling a category that is not
    selected makes it the whole selection, so "tech" then "science" leaves
    ["science"]; toggling the selected category leaves nothing selected.
    In the blog-list view toggling a category that is not selected appends
    it, so the same two toggles leave ["tech"; "science"], and toggling a
    selected one takes it out and keeps the others in their order, so that
    toggling "tech" again leaves ["science"]. *)
Theorem search_single_category :
  (∀ ctx url es,
     length (Search.selectedCategories (Search.run (Search.init ctx url) es))
     ≤ 1)
  ∧ (∀ st c,
       c ∉ Search.selectedCategories st →
       Search.selectedCategories (Search.handleCategoryToggle st c) = [c])
  ∧ (∀ ctx url,
       Search.selectedCategories
         (Search.run (Search.init ctx url) [Search.Toggle "tech";
                                            Search.Toggle "science"])
       = ["science"])
  ∧ (∀ st c,
       c ∈ Search.selectedCategories st →
       Search.selectedCategories (Search.handleCategoryToggle st c)
       = filter (λ x, x ≠ c) (Search.selectedCategories st))
  ∧ (∀ ctx url es c,
       let st := Search.run (Search.init ctx url) es in
       c ∈ Search.selectedCategories st →
       Search.selectedCategories st = [c]
       ∧ Search.selectedCategories (Search.handleCategoryToggle st c) = [])
  ∧ (∀ st c,
       c ∉ BlogList.selectedCategories st →
       BlogList.selectedCategories (BlogList.handleCategoryToggle st c)
       = BlogList.selectedCategories st ++ [c])
  ∧ (∀ st c,
       c ∈ BlogList.selectedCategories st →
       BlogList.selectedCategories (BlogList.handleCategoryToggle st c)
       = filter (λ x, x ≠ c) (BlogList.selectedCategories st))
  ∧ (∀ f sp ls,
       let st := BlogList.handleCategoryToggle
                   (BlogList.handleCategoryToggle (BlogList.mkState f sp ls [])
                      "tech") "science" in
       BlogList.selectedCategories st = ["tech"; "science"]
       ∧ BlogList.selectedCategories (BlogList.handleCategoryToggle st "tech")
         = ["science"]).
Proof.
  split_and!.
  - intros ctx url es. apply search_run_selected. simpl. lia.
  - intros st c Hc. simpl.
    destruct (includes _ c) eqn:Hi; [|done]. by apply includes_true in Hi.
  - done.
  - intros st c Hc. apply includes_true in Hc. simpl. rewrite Hc.
    apply without_filter.
  - intros ctx url es c st Hc.
    assert (Hlen : length (Search.selectedCategories st) ≤ 1).
    { apply search_run_selected. simpl. lia. }
    assert (Hsel : Search.selectedCategories st = [c]).
    { destruct (Search.selectedCategories st) as [|x [|y l]];
        [by apply elem_of_nil in Hc| |simpl in Hlen; lia].
      by apply list_elem_of_singleton in Hc as ->. }
    split; [done|]. simpl. rewrite Hsel. simpl.
    by rewrite String.eqb_refl.
  - intros st c Hc. simpl.
    destruct (includes _ c) eqn:Hi; [|done]. by apply includes_true in Hi.
  - intros st c Hc. apply includes_true in Hc. simpl. rewrite Hc.
    apply without_filter.
  - done.
Qed.

Lemma search_single_category_witness :
  let st := Search.run (Search.init BlogContext.initialFilters [])
              [Search.Toggle "tech"] in
  let bl := BlogList.mkState BlogContext.initialFilters [] ""
              ["tech"; "science"; "art"] in
  (("science" ∉ Search.selectedCategories st)
   ∧ ("tech" ∈ Search.selectedCategories st)
   ∧ ("science" ∈ BlogList.selectedCategories bl))
  ∧ Search.selectedCategories (Search.handleCategoryToggle st "science")
    = ["science"]
  ∧ Search.selectedCategories (Search.handleCategoryToggle st "tech") = []
  ∧ BlogList.selectedCategories (BlogList.handleCategoryToggle bl "science")
    = ["tech"; "art"].
Proof.
  intros st bl.
  assert (H1 : "science" ∉ Search.selectedCategories st) by compute_done.
  assert (H2 : "tech" ∈ Search.selectedCategories st) by compute_done.
  assert (H3 : "science" ∈ BlogList.selectedCategories bl) by compute_done.
  split; [done|]. split_and!.
  - exact (proj1 (proj2 search_single_category) st "science" H1).
  - exact (proj1 (proj2 (proj2 (proj2 search_single_category)))
             st "tech" H2).
  - exact (proj1 (proj2 (proj2 (proj2 (proj2 (proj2
             (proj2 search_single_category)))))) bl "science" H3).
Defined.

(** The search view also hands at most one category to the filters. *)
Lemma search_toggle_filters st c :
  length (Search.selectedCategories st) ≤ 1 →
  categories (Search.filters (Search.handleCategoryToggle st c)) = None
  ∨ ∃ x, categories (Search.filters (Search.handleCategoryToggle st c))
         = Some [x].
Proof.
  intros Hst. simpl. destruct (includes _ c); simpl; [|right; by exists c].
  pose proof (without_length (Search.selectedCategories st) c) as Hw.
  destruct (without _ c) as [|x [|y l]]; simpl in *; [by left|right; by exists x|lia].
Qed.

(** ** Rendering the forest *)

Section RenderDepth.

Variable cs : list Comment.

Lemma fst_dfs_depth f : ∀ d xs, (dfs_depth cs f d xs).*1 = dfs cs f xs.
Proof.
  induction f as [|f IH]; intros d xs; [done|].
  cbn [dfs_depth dfs]. induction xs as [|x xs IHxs]; [done|].
  rewrite !bind_cons, fmap_app, IHxs. simpl. by rewrite IH.
Qed.

Lemma level_from_children_sub k xs y x :
  y ∈ xs → x ∈ level_from cs k (children cs (id y)) →
  x ∈ level_from cs (S k) xs.
Proof.
  intros Hy Hx. apply list_elem_of_split in Hy as (a & b & ->).
  rewrite level_from_succ_r, next_level_app.
  unfold next_level at 2. rewrite bind_cons, !level_from_app.
  rewrite !elem_of_app. auto.
Qed.

(** A visit at depth [d] is a visit of a comment [d - d0] levels below the
    start. *)
Lemma elem_of_dfs_depth f : ∀ d0 xs x d,
  (x, d) ∈ dfs_depth cs f d0 xs →
  ∃ k, d = d0 + k ∧ x ∈ level_from cs k xs.
Proof.
  induction f as [|f IH]; intros d0 xs x d Hin.
  - by apply elem_of_nil in Hin.
  - cbn [dfs_depth] in Hin. apply list_elem_of_bind in Hin as (y & Hin & Hy).
    apply elem_of_cons in Hin as [[= -> ->]|Hin].
    + exists 0. split; [lia|done].
    + apply IH in Hin as (k & -> & Hk). exists (S k). split; [lia|].
      by eapply level_from_children_sub.
Qed.

Lemma dfs_depth_root f x d :
  (x, d) ∈ dfs_depth cs f 0 (roots cs) → at_depth cs d x.
Proof.
  intros Hin. apply elem_of_dfs_depth in Hin as (k & -> & Hk).
  by apply elem_of_level.
Qed.

End RenderDepth.

Section Render.

Variable h : heap.
Variable cs : list Comment.
Variable loggedIn : bool.

Abbreviation m := (commentMap_of (length h) cs).
Abbreviation h' := ((organize_result h cs).1).

Abbreviation row_of := (row_of m loggedIn).

Lemma concat_fmap_row f d (xs : list Comment) :
  concat ((λ x, row_of (x, d)
                :: (row_of <$> dfs_depth cs f (S d) (children cs (id x))))
          <$> xs)
  = row_of <$> (xs ≫= λ x,
                  (x, d) :: dfs_depth cs f (S d) (children cs (id x))).
Proof.
  induction xs as [|x xs IH]; [done|].
  rewrite fmap_cons, bind_cons. simpl. rewrite IH.
  by rewrite fmap_app.
Qed.

Lemma render_dfs f : ∀ d xs,
  (∀ x, x ∈ xs → x ∈ cs) → level_from cs f xs = [] →
  CommentItem.render f loggedIn h' d (node m <$> xs)
  = Some (row_of <$> dfs_depth cs f d xs).
Proof.
  induction f as [|f IH]; intros d xs Hsub Hnil.
  - simpl in Hnil. by subst xs.
  - cbn [CommentItem.render dfs_depth]. rewrite <- concat_fmap_row.
    erewrite mapM_Some_2; [done|].
    apply Forall2_fmap, Forall_Forall2_diag, Forall_forall.
    intros x Hx.
    destruct (result_lookup h cs x (Hsub x Hx)) as (c & _ & _ & Hl).
    rewrite Hl. simpl.
    rewrite IH; [done| |by eapply level_from_children].
    intros y Hy. by apply elem_of_children in Hy as [_ ?].
Qed.

Hypothesis Hnd : NoDup (id <$> cs).

Lemma render_result :
  CommentItem.render (length cs) loggedIn h' 0 (organize_result h cs).2
  = Some (row_of <$> dfs_depth cs (length cs) 0 (roots cs)).
Proof.
  rewrite result_roots. apply render_dfs.
  - intros x Hx. by apply elem_of_roots in Hx as [_ ?].
  - by apply level_bound.
Qed.

Lemma render_result_comments :
  CommentItem.row_comment <$> (row_of <$> dfs_depth cs (length cs) 0 (roots cs))
  = node m <$> dfs cs (length cs) (roots cs).
Proof.
  rewrite <- list_fmap_compose, <- (fst_dfs_depth cs (length cs) 0 (roots cs)).
  by rewrite <- list_fmap_compose.
Qed.

End Render.

(** X1.  For comments with distinct ids the cards are rendered in the order
    of the flattening; every card shows a copy of an input comment at the
    depth that counts its parent steps to a parentless comment, and offers
    Reply exactly when a user is logged in and that depth is below 3. *)
Theorem render_depth (h : heap) (allComments : list loc) (cs : list Comment)
    (loggedIn : bool) :
  deref h allComments = Some cs →
  NoDup (id <$> cs) →
  ∃ h' rootComments out rows,
    organizeComments h allComments = Some (h', rootComments)
    ∧ flatten (length cs) h' rootComments = Some out
    ∧ CommentItem.render (length cs) loggedIn h' 0 rootComments = Some rows
    ∧ CommentItem.row_comment <$> rows = out
    ∧ ∀ r, r ∈ rows →
        CommentItem.row_canReply r
        = loggedIn && (CommentItem.row_depth r <? 3)
        ∧ ∃ x o, at_depth cs (CommentItem.row_depth r) x
                 ∧ h' !! CommentItem.row_comment r = Some o
                 ∧ persisted o = persisted x.
Proof.
  intros Hd Hnd. eexists _, _, _, _. split_and!.
  - by apply organizeComments_result.
  - by apply flatten_out.
  - by apply render_result.
  - apply render_result_comments.
  - intros r Hr. apply list_elem_of_fmap in Hr as ([x d] & -> & Hx).
    split; [done|]. apply dfs_depth_root in Hx.
    exists x. eexists. split; [done|]. split.
    + apply (result_lookup_NoDup h cs x Hnd). by eapply at_depth_in.
    + done.
Qed.

Lemma render_depth_witness :
  (deref thread_fixture [0; 1; 2; 3] = Some thread_fixture
   ∧ NoDup (id <$> thread_fixture))
  ∧ ∃ h' rootComments rows,
      organizeComments thread_fixture [0; 1; 2; 3] = Some (h', rootComments)
      ∧ CommentItem.render 4 true h' 0 rootComments = Some rows
      ∧ ∀ r, r ∈ rows →
          CommentItem.row_canReply r = true && (CommentItem.row_depth r <? 3).
Proof.
  assert (H1 : deref thread_fixture [0; 1; 2; 3] = Some thread_fixture)
    by reflexivity.
  assert (H2 : NoDup (id <$> thread_fixture)) by compute_done.
  split; [done|].
  destruct (render_depth thread_fixture [0; 1; 2; 3] thread_fixture true
              H1 H2) as (h' & rs & out & rows & Ho & _ & Hr & _ & Hrows).
  exists h', rs, rows. split_and!; [exact Ho|exact Hr|].
  intros r Hin. exact (proj1 (Hrows r Hin)).
Defined.

(** X2.  For comments with distinct ids, when some comment is parentless
    and the list is not loading, the section shows cards for distinct
    objects, never more than the count in its header, and as many as the
    header says exactly when every comment is some number of parent steps
    away from a parentless one. *)
Theorem commentSection_count (h : heap) (comments : list loc)
    (cs : list Comment) (loggedIn : bool) :
  deref h comments = Some cs →
  NoDup (id <$> cs) →
  roots cs ≠ [] →
  ∃ rows,
    commentSection (length cs) loggedIn false h comments
    = Some (length comments, Thread rows)
    ∧ NoDup (CommentItem.row_comment <$> rows)
    ∧ length rows ≤ length comments
    ∧ (length rows = length comments ↔ ∀ c, c ∈ cs → ∃ k, at_depth cs k c).
Proof.
  intros Hd Hnd Hroots.
  pose proof (deref_length _ _ _ Hd) as Hlen.
  assert (Hsub : dfs cs (length cs) (roots cs) ⊆+ cs).
  { apply NoDup_submseteq; [by apply dfs_NoDup|].
    intros x Hx. apply elem_of_dfs in Hx as [k Hk]; [|done].
    by eapply at_depth_in. }
  eexists. split_and!.
  - unfold commentSection. rewrite (organizeComments_result h cs _ Hd).
    cbn [mbind option_bind].
    pose proof (result_roots h cs) as HR.
    pose proof (render_result h cs loggedIn Hnd) as HRen.
    destruct ((organize_result h cs).2) as [|r rs].
    + symmetry in HR. by apply fmap_nil_inv in HR.
    + by rewrite HRen.
  - rewrite render_result_comments. by apply flatten_result_NoDup.
  - rewrite length_fmap, <- (length_fmap fst), fst_dfs_depth, <- Hlen.
    by apply submseteq_length.
  - rewrite length_fmap, <- (length_fmap fst), fst_dfs_depth, <- Hlen. split.
    + intros Heq c Hc. apply elem_of_dfs; [done|].
      by rewrite (submseteq_length_Permutation _ _ Hsub ltac:(lia)).
    + intros Hall. apply Permutation_length.
      apply NoDup_Permutation; [by apply dfs_NoDup|by apply cs_NoDup|].
      intros x. rewrite elem_of_dfs by done. split; [|by apply Hall].
      intros [k Hk]. by eapply at_depth_in.
Qed.

Lemma commentSection_count_witness :
  (deref thread_fixture [0; 1; 2; 3] = Some thread_fixture
   ∧ NoDup (id <$> thread_fixture)
   ∧ roots thread_fixture ≠ [])
  ∧ ∃ rows,
      commentSection 4 true false thread_fixture [0; 1; 2; 3]
      = Some (4, Thread rows)
      ∧ length rows ≤ 4.
Proof.
  assert (H1 : deref thread_fixture [0; 1; 2; 3] = Some thread_fixture)
    by reflexivity.
  assert (H2 : NoDup (id <$> thread_fixture)) by compute_done.
  assert (H3 : roots thread_fixture ≠ []) by (by vm_compute).
  split; [done|].
  destruct (commentSection_count thread_fixture [0; 1; 2; 3] thread_fixture
              true H1 H2 H3) as (rows & Hs & _ & Hle & _).
  exists rows. split; [exact Hs|exact Hle].
Defined.

Lemma roots_nil cs : roots cs = [] ↔ ∀ c, c ∈ cs → parent_ref c ≠ None.
Proof.
  unfold roots. split.
  - intros Hnil c Hc Hp.
    assert (Hin : c ∈ filter (λ c, parent_ref c = None) cs)
      by by apply list_elem_of_filter.
    rewrite Hnil in Hin. by apply elem_of_nil in Hin.
  - intros Hall. induction cs as [|c cs IH]; [done|].
    rewrite filter_cons, decide_False.
    + apply IH. intros c' Hc'. apply Hall, elem_of_cons. auto.
    + apply Hall, elem_of_cons. auto.
Qed.

(** X3.  When the list is not loading, the section shows "No comments
    yet" exactly when no comment of the list is parentless, whatever the
    header count [comments.length] says; while loading it shows the
    skeleton. *)
Theorem commentSection_empty (h : heap) (comments : list loc)
    (cs : list Comment) (fuel : nat) (loggedIn : bool) :
  deref h comments = Some cs →
  (commentSection fuel loggedIn false h comments
   = Some (length comments, NoCommentsYet)
   ↔ ∀ c, c ∈ cs → parent_ref c ≠ None)
  ∧ commentSection fuel loggedIn true h comments
    = Some (length comments, Skeleton).
Proof.
  intros Hd. unfold commentSection.
  rewrite (organizeComments_result h cs _ Hd). cbn [mbind option_bind].
  split; [|done]. rewrite <- roots_nil.
  pose proof (result_roots h cs) as HR.
  destruct ((organize_result h cs).2) as [|r rs].
  - symmetry in HR. apply fmap_nil_inv in HR. by rewrite HR.
  - split.
    + by destruct (CommentItem.render _ _ _ _ _).
    + intros Hnil. by rewrite Hnil in HR.
Qed.

Lemma commentSection_empty_witness :
  deref orphan_fixture [0] = Some orphan_fixture
  ∧ commentSection 1 true false orphan_fixture [0] = Some (1, NoCommentsYet).
Proof.
  split; [reflexivity|].
  apply (proj1 (commentSection_empty orphan_fixture [0] orphan_fixture 1 true
                  eq_refl)).
  intros c Hc. unfold orphan_fixture in Hc.
  apply list_elem_of_singleton in Hc as ->. done.
Defined.

(** X4.  For every input, each object reachable from the root sequence is
    one allocated by the call, not an object of the caller and not an
    element of the input array, and it holds the fields of some input
    comment. *)
Theorem forest_of_copies (h : heap) (allComments : list loc)
    (cs : list Comment) :
  deref h allComments = Some cs →
  ∃ h' rootComments,
    organizeComments h allComments = Some (h', rootComments)
    ∧ ∀ l, in_forest h' rootComments l →
        length h ≤ l ∧ (l ∉ allComments)
        ∧ ∃ o c, h' !! l = Some o ∧ c ∈ cs ∧ persisted o = persisted c.
Proof.
  intros Hd. eexists _, _. split; [by apply organizeComments_result|].
  intros l Hl.
  assert (Hx : ∃ x, x ∈ cs ∧ l = node (commentMap_of (length h) cs) x).
  { induction Hl as [l Hl|l l' o _ IH Hlo Hl'].
    - rewrite result_roots in Hl.
      apply list_elem_of_fmap in Hl as (x & -> & [_ Hx]%elem_of_roots). eauto.
    - destruct IH as (x & Hx & ->).
      destruct (result_lookup h cs x Hx) as (c & _ & _ & Hlook).
      rewrite Hlook in Hlo. injection Hlo as <-. simpl in Hl'.
      apply list_elem_of_fmap in Hl' as (y & -> & [_ Hy]%elem_of_children).
      eauto. }
  destruct Hx as (x & Hx & ->).
  destruct (node_range h cs x Hx) as (k & c' & _ & _ & Hn).
  destruct (result_lookup h cs x Hx) as (c & Hc & _ & Hlook).
  split_and!.
  - lia.
  - intros Hin. eapply deref_lt in Hin; [|done]. lia.
  - eexists _, c. split_and!; [exact Hlook|done|done].
Qed.

Lemma forest_of_copies_witness :
  deref cycle_fixture [0; 1; 2] = Some cycle_fixture
  ∧ ∃ h' rootComments,
      organizeComments cycle_fixture [0; 1; 2] = Some (h', rootComments)
      ∧ ∀ l, in_forest h' rootComments l → 3 ≤ l.
Proof.
  split; [reflexivity|].
  destruct (forest_of_copies cycle_fixture [0; 1; 2] cycle_fixture eq_refl)
    as (h' & rs & Ho & Hall).
  exists h', rs. split; [exact Ho|].
  intros l Hl. exact (proj1 (Hall l Hl)).
Defined.

(** ** The order of the input *)

Lemma at_depth_same_elements cs cs' k c :
  (∀ x, x ∈ cs ↔ x ∈ cs') → at_depth cs k c → at_depth cs' k c.
Proof.
  intros Heq. induction 1 as [c Hc Hr|k c p Hc Hr _ IH].
  - constructor; [by apply Heq|done].
  - econstructor; [by apply Heq|done|done].
Qed.

Lemma dfs_Permutation cs cs' :
  NoDup (id <$> cs) → cs ≡ₚ cs' →
  dfs cs (length cs) (roots cs) ≡ₚ dfs cs' (length cs') (roots cs').
Proof.
  intros Hnd Hperm.
  assert (Hnd' : NoDup (id <$> cs')) by by rewrite <- Hperm.
  assert (Heq : ∀ x, x ∈ cs ↔ x ∈ cs') by (intros x; by rewrite Hperm).
  apply NoDup_Permutation; [by apply dfs_NoDup|by apply dfs_NoDup|].
  intros x. rewrite !elem_of_dfs by done.
  split; intros [k Hk]; exists k;
    eapply at_depth_same_elements; try exact Hk; intros y; by rewrite Heq.
Qed.

(** X5.  The order of the input array does not decide which comments are
    shown: for two arrays holding the same comments with distinct ids,
    flattening the two results visits the same records, and a comment has
    the same depth in both. *)
Theorem organizeComments_order_independent (h1 h2 : heap)
    (comments1 comments2 : list loc) (cs1 cs2 : list Comment) :
  deref h1 comments1 = Some cs1 →
  deref h2 comments2 = Some cs2 →
  cs1 ≡ₚ cs2 →
  NoDup (id <$> cs1) →
  ∃ h1' roots1 out1 objs1 h2' roots2 out2 objs2,
    organizeComments h1 comments1 = Some (h1', roots1)
    ∧ flatten (length cs1) h1' roots1 = Some out1
    ∧ deref h1' out1 = Some objs1
    ∧ organizeComments h2 comments2 = Some (h2', roots2)
    ∧ flatten (length cs2) h2' roots2 = Some out2
    ∧ deref h2' out2 = Some objs2
    ∧ persisted <$> objs1 ≡ₚ persisted <$> objs2
    ∧ ∀ k c, at_depth cs1 k c ↔ at_depth cs2 k c.
Proof.
  intros Hd1 Hd2 Hperm Hnd1.
  assert (Hnd2 : NoDup (id <$> cs2)) by by rewrite <- Hperm.
  assert (Heq : ∀ x, x ∈ cs1 ↔ x ∈ cs2) by (intros x; by rewrite Hperm).
  eexists _, _, _, _, _, _, _, _. split_and!.
  - by apply organizeComments_result.
  - by apply flatten_out.
  - apply (deref_result h1 cs1 Hnd1). intros x Hx.
    apply elem_of_dfs in Hx as [k Hk]; [|done]. by eapply at_depth_in.
  - by apply organizeComments_result.
  - by apply flatten_out.
  - apply (deref_result h2 cs2 Hnd2). intros x Hx.
    apply elem_of_dfs in Hx as [k Hk]; [|done]. by eapply at_depth_in.
  - rewrite <- !list_fmap_compose.
    transitivity (persisted <$> dfs cs1 (length cs1) (roots cs1)).
    { apply reflexive_eq. by apply list_fmap_ext. }
    transitivity (persisted <$> dfs cs2 (length cs2) (roots cs2)).
    { apply fmap_Permutation. by apply dfs_Permutation. }
    apply reflexive_eq. by apply list_fmap_ext.
  - intros k c. split; apply at_depth_same_elements; intros y; by rewrite Heq.
Qed.

Lemma organizeComments_order_independent_witness :
  let cs1 := [fixture "1" None; fixture "1a" (Some "1")] in
  let cs2 := [fixture "1a" (Some "1"); fixture "1" None] in
  (deref cs1 [0; 1] = Some cs1 ∧ deref cs2 [0; 1] = Some cs2
   ∧ cs1 ≡ₚ cs2 ∧ NoDup (id <$> cs1))
  ∧ ∃ h1' roots1 out1 h2' roots2 out2,
      organizeComments cs1 [0; 1] = Some (h1', roots1)
      ∧ flatten 2 h1' roots1 = Some out1
      ∧ organizeComments cs2 [0; 1] = Some (h2', roots2)
      ∧ flatten 2 h2' roots2 = Some out2.
Proof.
  intros cs1 cs2.
  assert (H1 : deref cs1 [0; 1] = Some cs1) by reflexivity.
  assert (H2 : deref cs2 [0; 1] = Some cs2) by reflexivity.
  assert (H3 : cs1 ≡ₚ cs2) by apply Permutation_swap.
  assert (H4 : NoDup (id <$> cs1)) by compute_done.
  split; [done|].
  destruct (organizeComments_order_independent cs1 cs2 [0; 1] [0; 1] cs1 cs2
              H1 H2 H3 H4)
    as (h1' & r1 & o1 & b1 & h2' & r2 & o2 & b2 & E1 & E2 & _ & E3 & E4 & _).
  exists h1', r1, o1, h2', r2, o2. split_and!; assumption.
Defined.

(** X6.  A comment that [addBlogComment] has put at the front of the list
    comes first where it is shown: its id heads the root sequence when it
    has no parent id, and heads the replies of the object kept for its
    parent id otherwise; behind it the sequences are those of the comments
    that were there before. *)
Theorem addBlogComment_shown_first (h : heap) (st : BlogProvider.State)
    (response : ApiResponse loc) (new : loc) (c : Comment)
    (cs : list Comment) :
  success response = true →
  data response = Some new →
  h !! new = Some c →
  deref h (BlogProvider.comments st) = Some cs →
  let comments' :=
    BlogProvider.comments (BlogProvider.addBlogComment st response) in
  comments' = new :: BlogProvider.comments st
  ∧ ∃ h1 commentMap h' rootComments,
      forEach firstPass comments' (h, ∅) = Some (h1, commentMap)
      ∧ organizeComments h comments' = Some (h', rootComments)
      ∧ ids_at h' rootComments
        = Some ((if decide (parent_ref c = None) then [id c] else [])
                ++ (id <$> roots cs))
      ∧ ∀ p l, commentMap !! p = Some l →
          ∃ o, h' !! l = Some o ∧ id o = p
               ∧ ids_at h' (default [] (replies o))
                 = Some ((if decide (parent_ref c = Some p) then [id c]
                          else [])
                         ++ (id <$> children cs p)).
Proof.
  intros Hs Hdata Hnew Hd comments'.
  assert (Hc' : comments' = new :: BlogProvider.comments st).
  { unfold comments', BlogProvider.addBlogComment. by rewrite Hs, Hdata. }
  split; [done|]. rewrite Hc'.
  assert (Hd' : deref h (new :: BlogProvider.comments st) = Some (c :: cs)).
  { apply deref_cons. eauto. }
  eexists _, _, _, _. split_and!.
  - by apply firstPass_result.
  - by apply organizeComments_result.
  - rewrite result_roots, ids_at_node.
    + f_equal. unfold roots. rewrite filter_cons. by case_decide.
    + intros x Hx. by apply elem_of_roots in Hx as [_ ?].
  - intros p l Hl.
    destruct (commentMap_entry h (c :: cs) p l Hl) as (o & Ho & Hid & Hr).
    exists o. split_and!; [done|done|]. rewrite Hr. f_equal.
    unfold children. rewrite filter_cons. by case_decide.
Qed.

Lemma addBlogComment_shown_first_witness :
  let h := [fixture "1" None; fixture "1a" (Some "1");
            fixture "1b" (Some "1")] in
  let st := BlogProvider.mkState [] None [0; 1] in
  let response := mkResponse true (Some 2) None None in
  (success response = true ∧ data response = Some 2
   ∧ h !! 2 = Some (fixture "1b" (Some "1"))
   ∧ deref h (BlogProvider.comments st)
     = Some [fixture "1" None; fixture "1a" (Some "1")])
  ∧ BlogProvider.comments (BlogProvider.addBlogComment st response)
    = [2; 0; 1].
Proof.
  intros h st response. split; [by split_and!|].
  exact (proj1 (addBlogComment_shown_first h st response 2
                  (fixture "1b" (Some "1"))
                  [fixture "1" None; fixture "1a" (Some "1")]
                  eq_refl eq_refl eq_refl eq_refl)).
Defined.

Lemma result_take (h : heap) cs :
  take (length h) (organize_result h cs).1 = h.
Proof. unfold organize_result. cbn [fst]. by rewrite take_app_length. Qed.

(** X7.  Calling [organizeComments] again on the same array, as every
    render does, builds the forest anew: the second call leaves the
    objects of the first forest as they are, shares no object with it, and
    for distinct ids its flattening shows the same ids in the same order. *)
Theorem organizeComments_again (h : heap) (allComments : list loc)
    (cs : list Comment) :
  deref h allComments = Some cs →
  NoDup (id <$> cs) →
  ∃ h1 roots1 out1 h2 roots2 out2,
    organizeComments h allComments = Some (h1, roots1)
    ∧ flatten (length cs) h1 roots1 = Some out1
    ∧ organizeComments h1 allComments = Some (h2, roots2)
    ∧ flatten (length cs) h2 roots2 = Some out2
    ∧ take (length h1) h2 = h1
    ∧ (∀ l, l ∈ out2 → l ∉ out1)
    ∧ ids_at h2 roots2 = ids_at h1 roots1
    ∧ ids_at h2 out2 = ids_at h1 out1.
Proof.
  intros Hd Hnd.
  set (h1 := (organize_result h cs).1).
  assert (Hd1 : deref h1 allComments = Some cs).
  { eapply deref_agree; [done|]. intros l Hl.
    apply (result_frame h cs). by eapply deref_lt. }
  assert (Hsub : ∀ x, x ∈ dfs cs (length cs) (roots cs) → x ∈ cs).
  { intros x Hx. apply elem_of_dfs in Hx as [k Hk]; [|done].
    by eapply at_depth_in. }
  assert (Hsubr : ∀ x, x ∈ roots cs → x ∈ cs).
  { intros x Hx. by apply elem_of_roots in Hx as [_ ?]. }
  eexists _, _, _, _, _, _. split_and!.
  - by apply organizeComments_result.
  - by apply flatten_out.
  - by apply organizeComments_result.
  - by apply flatten_out.
  - apply result_take.
  - intros l Hl2 Hl1.
    apply list_elem_of_fmap in Hl2 as (x & -> & Hx).
    apply list_elem_of_fmap in Hl1 as (y & Hxy & Hy).
    destruct (node_range h1 cs x (Hsub x Hx)) as (k & _ & _ & _ & Hk).
    destruct (node_range h cs y (Hsub y Hy)) as (j & cy & Hj & _ & Hjj).
    apply lookup_lt_Some in Hj.
    pose proof (result_length h cs) as HL. unfold h1 in *. lia.
  - unfold h1 in *.
    rewrite (result_roots (organize_result h cs).1 cs), (result_roots h cs).
    rewrite (ids_at_node (organize_result h cs).1 cs _ Hsubr).
    by rewrite (ids_at_node h cs _ Hsubr).
  - unfold h1 in *.
    rewrite (ids_at_node (organize_result h cs).1 cs _ Hsub).
    by rewrite (ids_at_node h cs _ Hsub).
Qed.

Lemma organizeComments_again_witness :
  (deref thread_fixture [0; 1; 2; 3] = Some thread_fixture
   ∧ NoDup (id <$> thread_fixture))
  ∧ ∃ h1 roots1 h2 roots2,
      organizeComments thread_fixture [0; 1; 2; 3] = Some (h1, roots1)
      ∧ organizeComments h1 [0; 1; 2; 3] = Some (h2, roots2)
      ∧ ids_at h2 roots2 = ids_at h1 roots1.
Proof.
  assert (H1 : deref thread_fixture [0; 1; 2; 3] = Some thread_fixture)
    by reflexivity.
  assert (H2 : NoDup (id <$> thread_fixture)) by compute_done.
  split; [done|].
  destruct (organizeComments_again thread_fixture [0; 1; 2; 3] thread_fixture
              H1 H2)
    as (h1 & r1 & o1 & h2 & r2 & o2 & E1 & _ & E2 & _ & _ & _ & E3 & _).
  exists h1, r1, h2, r2. split_and!; assumption.
Defined.

(** ** The blog-list view: reload, sessions, sorting *)

Lemma or_undefined_truthy s :
  truthy_string (Some s) = true → or_undefined s = Some s.
Proof. unfold or_undefined. by intros ->. Qed.

Lemma or_undefined_falsy s :
  truthy_string (Some s) = false → or_undefined s = None.
Proof. unfold or_undefined. by intros ->. Qed.

Ltac case_truthy :=
  repeat match goal with
    | |- context [truthy_string (Some ?x)] =>
        let H := fresh "Ht" in
        destruct (truthy_string (Some x)) eqn:H
    end.

Ltac use_truthy :=
  repeat match goal with
    | H : truthy_string (Some ?x) = _ |- context [or_undefined ?x] =>
        first [rewrite (or_undefined_truthy _ H)
              |rewrite (or_undefined_falsy _ H)]
    | H : truthy_string (Some ?x) = _ |- context [truthy_string (Some ?x)] =>
        rewrite H
    end.

Ltac step_truthy :=
  change (truthy_string None) with false;
  cbn -[truthy_string or_undefined]; case_truthy; use_truthy;
  cbn -[truthy_string or_undefined].

(** The pairs of the derived query, in order. *)
Lemma deriveSearchParams_pairs f :
  BlogList.deriveSearchParams f
  = (if truthy_string (search f)
     then [("search", default "" (search f))] else [])
    ++ match categories f with
       | Some (c :: _) => [("category", c)]
       | _ => []
       end
    ++ (if truthy_string (sortBy f)
        then [("sort", default "" (sortBy f))] else [])
    ++ (if truthy_string (sortOrder f)
        then [("order", default "" (sortOrder f))] else []).
Proof.
  unfold BlogList.deriveSearchParams.
  destruct (truthy_string (search f)), (categories f) as [[|c l]|],
    (truthy_string (sortBy f)), (truthy_string (sortOrder f)); reflexivity.
Qed.

Lemma get_or_derive f :
  get_or (BlogList.deriveSearchParams f) "search" ""
  = (if truthy_string (search f) then default "" (search f) else "")
  ∧ get_or (BlogList.deriveSearchParams f) "category" ""
    = match categories f with
      | Some (c :: _) => if truthy_string (Some c) then c else ""
      | _ => ""
      end
  ∧ get_or (BlogList.deriveSearchParams f) "sort" "createdAt"
    = (if truthy_string (sortBy f) then default "" (sortBy f)
       else "createdAt")
  ∧ get_or (BlogList.deriveSearchParams f) "order" "desc"
    = (if truthy_string (sortOrder f) then default "" (sortOrder f)
       else "desc").
Proof.
  rewrite deriveSearchParams_pairs. unfold get_or.
  destruct (search f) as [s|], (categories f) as [[|c l]|],
    (sortBy f) as [b|], (sortOrder f) as [o|];
    step_truthy; step_truthy; step_truthy; done.
Qed.

Lemma blogList_reload_aux (f ctx : BlogFilters) :
  let st := BlogList.mount
              (BlogList.mkState ctx (BlogList.deriveSearchParams f) "" []) in
  BlogList.filters st
  = mkBlogFilters
      (if truthy_string (search f) then search f else None)
      match categories f with
      | Some (c :: _) => if truthy_string (Some c) then Some [c] else None
      | _ => None
      end
      None None (Some Published)
      (Some (if truthy_string (sortBy f) then default "" (sortBy f)
             else "createdAt"))
      (Some (if truthy_string (sortOrder f) then default "" (sortOrder f)
             else "desc"))
      (Some 12%Z) (Some 0%Z)
  ∧ BlogList.localSearch st
    = (if truthy_string (search f) then default "" (search f) else "")
  ∧ BlogList.selectedCategories st
    = match categories f with
      | Some (c :: _) => if truthy_string (Some c) then [c] else []
      | _ => []
      end.
Proof.
  cbv zeta. unfold BlogList.mount.
  cbn [BlogList.searchParams BlogList.selectedCategories BlogList.filters
       BlogList.localSearch].
  destruct (get_or_derive f) as (-> & -> & -> & ->).
  destruct (search f) as [s|], (categories f) as [[|c l]|];
    step_truthy; step_truthy;
    first [done|congruence|by simpl in *|by split_and!].
Qed.

(** X8.  Opening the blog list at the URL that [applyFilters] derived from
    a filter object gives back its non-empty search text, only the first of
    its categories, and its sort fields, with [createdAt] and [desc] where
    they were empty; tags, author, limit and offset are not carried over:
    the status is [published], the limit [12], the offset [0]. *)
Theorem blogList_reload (f ctx : BlogFilters) :
  let st := BlogList.mount
              (BlogList.mkState ctx (BlogList.deriveSearchParams f) "" []) in
  BlogList.filters st
  = mkBlogFilters
      (if truthy_string (search f) then search f else None)
      match categories f with
      | Some (c :: _) => if truthy_string (Some c) then Some [c] else None
      | _ => None
      end
      None None (Some Published)
      (Some (if truthy_string (sortBy f) then default "" (sortBy f)
             else "createdAt"))
      (Some (if truthy_string (sortOrder f) then default "" (sortOrder f)
             else "desc"))
      (Some 12%Z) (Some 0%Z)
  ∧ BlogList.localSearch st
    = (if truthy_string (search f) then default "" (search f) else "")
  ∧ BlogList.selectedCategories st
    = match categories f with
      | Some (c :: _) => if truthy_string (Some c) then [c] else []
      | _ => []
      end.
Proof. apply blogList_reload_aux. Qed.

(** X9.  A filter object of the shape the blog list itself builds (status
    [published], limit [12], first page, no tags or author, a search text
    and a single category that are absent or non-empty, non-empty sort
    fields) survives the trip through the URL: opening the view at the URL
    derived from it gives the same object. *)
Theorem blogList_reload_same (f ctx : BlogFilters) :
  tags f = None → filter_author f = None → status f = Some Published →
  limit f = Some 12%Z → offset f = Some 0%Z →
  (search f = None ∨ truthy_string (search f) = true) →
  (categories f = None
   ∨ ∃ c, categories f = Some [c] ∧ truthy_string (Some c) = true) →
  truthy_string (sortBy f) = true → truthy_string (sortOrder f) = true →
  BlogList.filters
    (BlogList.mount
       (BlogList.mkState ctx (BlogList.deriveSearchParams f) "" []))
  = f.
Proof.
  intros Ht Ha Hst Hl Ho Hs Hc Hb Hd.
  rewrite (proj1 (blogList_reload_aux f ctx)).
  destruct f as [fs fc ft fa fu fb fd fl fo]. simpl in *. subst.
  rewrite Hb, Hd.
  destruct fb as [b|], fd as [d|]; try done. simpl.
  f_equal.
  - destruct Hs as [-> | ->]; done.
  - destruct Hc as [->|(c & -> & ->)]; done.
Qed.

Lemma blogList_reload_same_witness :
  let f := mkBlogFilters (Some "rocq") (Some ["tech"]) None None
             (Some Published) (Some "likes") (Some "asc")
             (Some 12%Z) (Some 0%Z) in
  (tags f = None ∧ filter_author f = None ∧ status f = Some Published
   ∧ limit f = Some 12%Z ∧ offset f = Some 0%Z
   ∧ truthy_string (sortBy f) = true ∧ truthy_string (sortOrder f) = true)
  ∧ BlogList.filters
      (BlogList.mount
         (BlogList.mkState BlogContext.initialFilters
            (BlogList.deriveSearchParams f) "" []))
    = f.
Proof.
  intros f. split; [by split_and!|].
  apply (blogList_reload_same f BlogContext.initialFilters);
    try reflexivity.
  - by right.
  - right. by exists "tech".
Defined.

(** *** Sessions *)

Lemma without_NoDup xs x : NoDup xs → NoDup (without xs x).
Proof.
  intros Hnd. unfold without. induction Hnd as [|y xs Hy Hnd IH]; simpl.
  - constructor.
  - destruct (negb (String.eqb y x)); [|done]. constructor; [|done].
    rewrite list_elem_of_In, filter_In, <- list_elem_of_In. tauto.
Qed.

Lemma without_app_new xs x : x ∉ xs → without (xs ++ [x]) x = xs.
Proof.
  intros Hx. unfold without. rewrite List.filter_app. simpl.
  rewrite String.eqb_refl. simpl. rewrite app_nil_r.
  induction xs as [|y xs IH]; [done|].
  apply not_elem_of_cons in Hx as [Hne Hx]. simpl.
  destruct (String.eqb_spec y x) as [->|_]; [done|]. simpl. by rewrite IH.
Qed.

Lemma without_absent xs x : x ∉ xs → without xs x = xs.
Proof.
  intros Hx. unfold without. induction xs as [|y xs IH]; [done|].
  apply not_elem_of_cons in Hx as [Hne Hx]. simpl.
  destruct (String.eqb_spec y x) as [->|_]; [done|]. simpl. by rewrite IH.
Qed.

Lemma includes_false xs x : includes xs x = false ↔ x ∉ xs.
Proof.
  rewrite <- includes_true. by destruct (includes xs x).
Qed.

Lemma blogList_step_synced st e :
  BlogListHandlers.synced st →
  BlogListHandlers.synced (BlogListHandlers.step st e).
Proof.
  intros [Hc Hnd]. destruct e as [s| | |c|v|p|]; split; simpl; try done.
  - destruct (includes _ c) eqn:Hi.
    + by apply without_NoDup.
    + apply includes_false in Hi. apply NoDup_app. split_and!; [done| |].
      * intros x Hx ->%list_elem_of_singleton. done.
      * apply NoDup_singleton.
  - constructor.
Qed.

Lemma blogList_mount_synced ctx url :
  BlogListHandlers.synced (BlogList.mount (BlogList.mkState ctx url "" [])).
Proof.
  unfold BlogListHandlers.synced, BlogList.mount.
  cbn [BlogList.filters BlogList.selectedCategories BlogList.searchParams
       categories].
  destruct (truthy_string (Some (get_or url "category" ""))).
  - split; [done|apply NoDup_singleton].
  - split; [done|constructor].
Qed.

Lemma blogList_fetched_synced es : ∀ st,
  BlogListHandlers.synced st →
  Forall BlogListHandlers.synced (BlogListHandlers.fetched_from st es)
  ∧ BlogListHandlers.synced (fold_left BlogListHandlers.step es st).
Proof.
  induction es as [|e es IH]; intros st Hst; [by split|].
  pose proof (blogList_step_synced st e Hst) as Hstep.
  destruct (IH _ Hstep) as [Hall Hlast]. split; [|done].
  cbn [BlogListHandlers.fetched_from]. apply Forall_app. split; [|done].
  destruct (BlogListHandlers.stores_filters e); [|constructor].
  constructor; [done|constructor].
Qed.

(** X10.  Of the filter objects the blog list hands to [fetchBlogs], the
    first is the one the context held when the view was opened, sent while
    the panel shows no selection, so that its category filter is that of
    the view left before.  Every later one (after the mount effect and
    after each submit or clearing of the search, toggle, sort change, page
    change or clearing of all filters, whatever the URL and the events)
    carries as category filter the selection shown in the panel at that
    render, undefined when that is empty, and no category is selected
    twice. *)
Theorem blogList_session_synced (ctx : BlogFilters) (url : URLSearchParams.t)
    (es : list BlogListHandlers.Event) :
  (∃ later,
     BlogListHandlers.fetched ctx url es
     = BlogList.mkState ctx url "" [] :: later
     ∧ Forall BlogListHandlers.synced later
     ∧ (BlogListHandlers.synced (BlogList.mkState ctx url "" [])
        ↔ categories ctx = None))
  ∧ BlogListHandlers.synced (BlogListHandlers.session ctx url es).
Proof.
  pose proof (blogList_mount_synced ctx url) as Hm.
  destruct (blogList_fetched_synced es _ Hm) as [Hall Hlast].
  split; [|exact Hlast].
  eexists. split; [reflexivity|]. split.
  - by constructor.
  - unfold BlogListHandlers.synced. simpl. split; [by intros [? _]|].
    intros ->. split; [done|constructor].
Qed.

(** The first fetch of the blog list opened after the search view had
    searched in the category "tech": the category filter is still there
    while the panel shows none. *)
Example blogList_first_fetch_stale :
  let ctx := Search.filters
               (Search.handleCategoryToggle
                  (Search.init BlogContext.initialFilters []) "tech") in
  ∃ later,
    BlogListHandlers.fetched ctx [] [] = BlogList.mkState ctx [] "" [] :: later
    ∧ categories ctx = Some ["tech"]
    ∧ ¬ BlogListHandlers.synced (BlogList.mkState ctx [] "" []).
Proof.
  eexists. split_and!; [reflexivity|reflexivity|]. by intros [? _].
Qed.

(** X11.  Toggling a category that is not selected and toggling it again:
    in the blog list the selection and the category filter are those from
    before; in the search view the selection is empty afterwards, whatever
    was selected before. *)
Theorem toggle_twice :
  (∀ st c,
     BlogListHandlers.synced st →
     c ∉ BlogList.selectedCategories st →
     let st'' := BlogList.handleCategoryToggle
                   (BlogList.handleCategoryToggle st c) c in
     BlogList.selectedCategories st'' = BlogList.selectedCategories st
     ∧ categories (BlogList.filters st'') = categories (BlogList.filters st))
  ∧ (∀ st c,
       c ∉ Search.selectedCategories st →
       Search.selectedCategories
         (Search.handleCategoryToggle (Search.handleCategoryToggle st c) c)
       = []).
Proof.
  split.
  - intros st c [Hc Hnd] Hnotin. cbv zeta.
    apply includes_false in Hnotin as Hi. simpl. rewrite Hi.
    assert (Hin : includes (BlogList.selectedCategories st ++ [c]) c = true).
    { apply includes_true. apply elem_of_app. right. apply elem_of_cons. by left. }
    rewrite Hin. rewrite without_app_new by done. by rewrite Hc.
  - intros st c Hnotin. apply includes_false in Hnotin as Hi.
    simpl. rewrite Hi. simpl. by rewrite String.eqb_refl.
Qed.

Lemma toggle_twice_witness :
  let st := BlogListHandlers.session BlogContext.initialFilters []
              [BlogListHandlers.Toggle "tech"] in
  (BlogListHandlers.synced st ∧ ("science" ∉ BlogList.selectedCategories st))
  ∧ BlogList.selectedCategories
      (BlogList.handleCategoryToggle
         (BlogList.handleCategoryToggle st "science") "science")
    = ["tech"].
Proof.
  intros st.
  assert (H1 : BlogListHandlers.synced st)
    by (split; [reflexivity|compute_done]).
  assert (H2 : "science" ∉ BlogList.selectedCategories st) by compute_done.
  split; [done|].
  exact (proj1 (proj1 toggle_twice st "science" H1 H2)).
Defined.

(** *** Sorting and paging *)

Lemma split_no_sep sep s : has_char sep s = false → split sep s = [s].
Proof.
  induction s as [|c s IH]; [done|]. simpl.
  destruct (Ascii.eqb c sep); [done|]. simpl. intros Hs. by rewrite IH.
Qed.

Lemma split_app sep a b :
  has_char sep a = false →
  split sep (a ++ String sep b) = a :: split sep b.
Proof.
  induction a as [|c a IH]; simpl.
  - by rewrite Ascii.eqb_refl.
  - destruct (Ascii.eqb c sep); [done|]. simpl. intros Ha. by rewrite IH.
Qed.

(** X12.  Choosing an option of the sort dropdown, whose value is the sort
    field and the sort order joined by ["-"], stores these two as [sortBy]
    and [sortOrder] when neither contains ["-"], and returns to the first
    page; a value without ["-"] stores the whole value as [sortBy] and
    leaves [sortOrder] undefined. *)
Theorem handleSortChange_value :
  (∀ st sb so,
     has_char dash sb = false → has_char dash so = false →
     let st' := BlogListHandlers.handleSortChange st
                  (BlogListHandlers.sortValue sb so) in
     sortBy (BlogList.filters st') = Some sb
     ∧ sortOrder (BlogList.filters st') = Some so
     ∧ offset (BlogList.filters st') = Some 0%Z)
  ∧ (∀ st v,
       has_char dash v = false →
       let st' := BlogListHandlers.handleSortChange st v in
       sortBy (BlogList.filters st') = Some v
       ∧ sortOrder (BlogList.filters st') = None).
Proof.
  split.
  - intros st sb so Hb Ho. cbv zeta.
    unfold BlogListHandlers.handleSortChange, BlogListHandlers.sortValue.
    change (sb ++ "-" ++ so)%string with (sb ++ String dash so)%string.
    rewrite (split_app dash sb so Hb), (split_no_sep dash so Ho). done.
  - intros st v Hv. cbv zeta. unfold BlogListHandlers.handleSortChange.
    rewrite (split_no_sep dash v Hv). done.
Qed.

Lemma handleSortChange_value_witness :
  let st := BlogListHandlers.session BlogContext.initialFilters [] [] in
  (has_char dash "likes" = false ∧ has_char dash "desc" = false)
  ∧ sortBy (BlogList.filters
              (BlogListHandlers.handleSortChange st "likes-desc"))
    = Some "likes"
  ∧ sortOrder (BlogList.filters
                 (BlogListHandlers.handleSortChange st "likes-desc"))
    = Some "desc".
Proof.
  intros st. split; [by split|].
  destruct (proj1 handleSortChange_value st "likes" "desc" eq_refl eq_refl)
    as (H1 & H2 & _).
  split; [exact H1|exact H2].
Defined.

(** X13.  Paging stores offset [0] exactly for page one, and a later page
    change replaces an earlier one; every other handler of the blog list,
    typing in the search box apart, stores offset [0]. *)
Theorem blogList_paging :
  (∀ st page,
     offset (BlogList.filters (BlogList.handlePageChange st page))
     = Some 0%Z ↔ page = 1%Z)
  ∧ (∀ st p q,
       BlogList.handlePageChange (BlogList.handlePageChange st p) q
       = BlogList.handlePageChange st q)
  ∧ (∀ st e,
       match e with
       | BlogListHandlers.TypeSearch _ | BlogListHandlers.PageChange _ => True
       | _ => offset (BlogList.filters (BlogListHandlers.step st e))
              = Some 0%Z
       end).
Proof.
  split_and!.
  - intros st page. simpl.
    pose proof (limit_or_default_nonzero (BlogList.filters st)) as Hl.
    split.
    + intros [= H]. nia.
    + by intros ->.
  - intros st p q. unfold BlogList.handlePageChange. simpl. f_equal.
  - intros st e. by destruct e.
Qed.

(** ** The keyword-search view: URL and filters *)

Lemma handleSearch_mirrors st query cats :
  SearchHandlers.mirrors (Search.handleSearch st query cats).
Proof.
  unfold SearchHandlers.mirrors, Search.handleSearch.
  cbn [Search.searchParams Search.filters search categories].
  unfold or_undefined.
  destruct (truthy_string (Some query)), cats as [|c l]; done.
Qed.

(** X14.  In the search view the URL mirrors the filters ([q] is the search
    text, [category] the first category) after a submit, a toggle, a clear
    or the removal of the query badge, whatever the state was, and every
    event keeps it so once it holds. *)
Theorem search_url_mirrors :
  (∀ st e,
     match e with
     | Search.Submit | Search.Toggle _ | Search.Clear =>
         SearchHandlers.mirrors (Search.step st e)
     | _ => True
     end)
  ∧ (∀ st, SearchHandlers.mirrors (SearchHandlers.clearQueryBadge st))
  ∧ (∀ st es,
       SearchHandlers.mirrors st → SearchHandlers.mirrors (Search.run st es)).
Proof.
  assert (Hstep : ∀ st e, SearchHandlers.mirrors st →
                          SearchHandlers.mirrors (Search.step st e)).
  { intros st e Hst. destruct e as [|q| |c|]; simpl.
    - unfold Search.mount. destruct (truthy_string _); [|done].
      apply (handleSearch_mirrors st).
    - done.
    - apply handleSearch_mirrors.
    - apply (handleSearch_mirrors st).
    - done. }
  split_and!.
  - intros st e. destruct e as [|q| |c|]; try done.
    + apply handleSearch_mirrors.
    + apply (handleSearch_mirrors st).
  - intros st. apply (handleSearch_mirrors st).
  - intros st es. revert st. induction es as [|e es IH]; intros st Hst; [done|].
    simpl. apply IH. by apply Hstep.
Qed.

Lemma search_url_mirrors_witness :
  let st := Search.init BlogContext.initialFilters [] in
  SearchHandlers.mirrors st
  ∧ SearchHandlers.mirrors
      (Search.run st [Search.TypeQuery "rocq"; Search.Toggle "tech";
                      Search.Submit]).
Proof.
  intros st.
  assert (H : SearchHandlers.mirrors st) by (by split).
  split; [exact H|].
  exact (proj2 (proj2 search_url_mirrors) st _ H).
Defined.

(** X15.  Opening the search view at the URL it wrote for a non-empty
    query and at most one, non-empty, category gives the filters and the
    query back, but not the selection, which stays empty; at a URL without
    a non-empty [q] the mount effect changes nothing, so a [category]
    parameter alone is ignored. *)
Theorem search_reload :
  (∀ st ctx query cats,
     truthy_string (Some query) = true →
     (cats = [] ∨ ∃ c, cats = [c] ∧ truthy_string (Some c) = true) →
     let written := Search.handleSearch st query cats in
     let st' := Search.mount (Search.init ctx (Search.searchParams written)) in
     Search.filters st' = Search.filters written
     ∧ Search.searchParams st' = Search.searchParams written
     ∧ Search.searchQuery st' = query
     ∧ Search.searchSubmitted st' = true
     ∧ Search.selectedCategories st' = [])
  ∧ (∀ ctx url,
       truthy_string (Some (get_or url "q" "")) = false →
       Search.mount (Search.init ctx url) = Search.init ctx url).
Proof.
  split.
  - intros st ctx query cats Hq Hc. cbv zeta.
    unfold Search.mount, Search.handleSearch, get_or.
    cbn [Search.searchParams Search.init].
    rewrite Hq. destruct Hc as [->|(c & -> & Hc)].
    + cbn -[truthy_string or_undefined].
      rewrite (or_undefined_truthy _ Hq). cbn -[truthy_string or_undefined].
      rewrite Hq. change (truthy_string (Some "")) with false.
      cbn -[truthy_string or_undefined].
      by rewrite ?(or_undefined_truthy _ Hq).
    + cbn -[truthy_string or_undefined].
      rewrite (or_undefined_truthy _ Hq). cbn -[truthy_string or_undefined].
      rewrite (or_undefined_truthy _ Hc). cbn -[truthy_string or_undefined].
      rewrite Hq, Hc. cbn -[truthy_string or_undefined].
      by rewrite ?(or_undefined_truthy _ Hq), ?(or_undefined_truthy _ Hc).
  - intros ctx url Hq. unfold Search.mount.
    cbn [Search.searchParams Search.init]. by rewrite Hq.
Qed.

Lemma search_reload_witness :
  let st := Search.init BlogContext.initialFilters [] in
  let written := Search.handleSearch st "rocq" ["tech"] in
  (truthy_string (Some "rocq") = true ∧ truthy_string (Some "tech") = true)
  ∧ Search.filters
      (Search.mount
         (Search.init BlogContext.initialFilters
            (Search.searchParams written)))
    = Search.filters written.
Proof.
  intros st written. split; [by split|].
  refine (proj1 (proj1 search_reload st BlogContext.initialFilters
                   "rocq" ["tech"] eq_refl _)).
  right. by exists "tech".
Defined.

(** X16.  When the search view is opened at a URL with a non-empty query
    and a non-empty category, the category is in the filters of the first
    fetch but not in the selection, so that the next submit of the form
    searches without it and takes it out of the URL. *)
Theorem search_mount_category_lost (ctx : BlogFilters)
    (url : URLSearchParams.t) :
  truthy_string (Some (get_or url "q" "")) = true →
  truthy_string (Some (get_or url "category" "")) = true →
  let st := Search.mount (Search.init ctx url) in
  categories (Search.filters st) = Some [get_or url "category" ""]
  ∧ Search.selectedCategories st = []
  ∧ categories (Search.filters (Search.handleSearchSubmit st)) = None
  ∧ URLSearchParams.get "category"
      (Search.searchParams (Search.handleSearchSubmit st)) = None
  ∧ search (Search.filters (Search.handleSearchSubmit st))
    = Some (get_or url "q" "").
Proof.
  intros Hq Hc. cbv zeta. unfold Search.mount.
  cbn [Search.searchParams Search.init]. rewrite Hq, Hc.
  unfold Search.handleSearchSubmit, Search.handleSearch, Search.setSearchQuery.
  cbn -[truthy_string or_undefined get_or].
  rewrite Hq, (or_undefined_truthy _ Hq). by cbn.
Qed.

Lemma search_mount_category_lost_witness :
  let url := [("q", "rocq"); ("category", "tech")] in
  (truthy_string (Some (get_or url "q" "")) = true
   ∧ truthy_string (Some (get_or url "category" "")) = true)
  ∧ categories
      (Search.filters
         (Search.handleSearchSubmit
            (Search.mount (Search.init BlogContext.initialFilters url))))
    = None.
Proof.
  intros url. split; [by split|].
  exact (proj1 (proj2 (proj2 (search_mount_category_lost
            BlogContext.initialFilters url eq_refl eq_refl)))).
Defined.

(** ** The home page: featured blogs *)

Section Sort.

Context {A : Type} (compare : A → A → Z).

Lemma sort_insert_Permutation x l : sort_insert compare x l ≡ₚ x :: l.
Proof.
  induction l as [|y l IH]; [done|]. simpl.
  destruct (compare x y <=? 0)%Z; [done|]. rewrite IH. apply Permutation_swap.
Qed.

Lemma sort_Permutation l : sort compare l ≡ₚ l.
Proof.
  induction l as [|x l IH]; [done|]. simpl.
  by rewrite sort_insert_Permutation, IH.
Qed.

(** Elements that the comparison does not separate keep their order. *)
Lemma sort_insert_filter (P : A → Prop) `{∀ x, Decision (P x)} x l :
  (∀ y, P x → P y → (compare x y <=? 0)%Z = true) →
  filter P (sort_insert compare x l) = filter P (x :: l).
Proof.
  intros Hcmp. induction l as [|y l IH]; [done|]. simpl.
  destruct (compare x y <=? 0)%Z eqn:Hxy; [done|].
  rewrite filter_cons, IH, !filter_cons.
  destruct (decide (P x)) as [Hx|Hx], (decide (P y)) as [Hy|Hy]; try done.
  rewrite Hcmp in Hxy; done.
Qed.

End Sort.

Section Featured.

Import BlogRecord.

(** The comparison of the home page. *)
Abbreviation by_likes := (λ a b : Blog, (likes b - likes a)%Z).

(** [a] may stand before [b]. *)
Abbreviation more_liked := (λ a b : Blog, (likes b ≤ likes a)%Z).

Lemma sort_insert_sorted x l :
  StronglySorted more_liked l →
  StronglySorted more_liked (sort_insert by_likes x l).
Proof.
  induction 1 as [|y l Hl IH Hy]; simpl; [by repeat constructor|].
  destruct (Z.leb_spec (likes y - likes x) 0) as [Hle|Hgt].
  - constructor; [by constructor|]. constructor; [lia|].
    eapply Forall_impl; [exact Hy|]. intros z Hz. simpl in *. lia.
  - constructor; [done|].
    rewrite (sort_insert_Permutation by_likes x l). constructor; [lia|done].
Qed.

Lemma sort_sorted l : StronglySorted more_liked (sort by_likes l).
Proof.
  induction l as [|x l IH]; [constructor|]. simpl. by apply sort_insert_sorted.
Qed.

Lemma sort_stable n l :
  filter (λ b, likes b = n) (sort by_likes l) = filter (λ b, likes b = n) l.
Proof.
  induction l as [|x l IH]; [done|]. simpl.
  rewrite (sort_insert_filter by_likes (λ b, likes b = n)).
  - by rewrite !filter_cons, IH.
  - intros y Hx Hy. simpl in *. apply Z.leb_le. lia.
Qed.

End Featured.

(** X17.  The featured blogs of the home page are published blogs of the
    list, each taken at most as often as it occurs there; there are three
    of them, or as many as there are published blogs if these are fewer. *)
Theorem featured_published (blogs : list BlogRecord.Blog) :
  length (Home.featured blogs) = 3 `min` Home.totalBlogs blogs
  ∧ Home.featured blogs ⊆+ blogs
  ∧ ∀ b, b ∈ Home.featured blogs →
      BlogRecord.status b = Published ∧ b ∈ blogs.
Proof.
  unfold Home.featured, Home.totalBlogs.
  set (published := filter (λ b, BlogRecord.status b = Published) blogs).
  set (sorted := sort _ published).
  assert (Hperm : sorted ≡ₚ published) by apply sort_Permutation.
  split_and!.
  - by rewrite length_take, Hperm.
  - transitivity sorted; [apply sublist_submseteq, sublist_take|].
    rewrite Hperm. apply sublist_submseteq, sublist_filter.
  - intros b Hb.
    assert (Hin : b ∈ published).
    { rewrite <- Hperm, <- (take_drop 3 sorted). apply elem_of_app. by left. }
    by apply list_elem_of_filter in Hin.
Qed.

(** X18.  The featured blogs stand in descending order of likes; a
    published blog of the list that is not featured has no more likes than
    any featured one; and sorting keeps blogs with equal likes in the order
    of the list. *)
Theorem featured_most_liked (blogs : list BlogRecord.Blog) :
  StronglySorted (λ a b, (BlogRecord.likes b ≤ BlogRecord.likes a)%Z)
    (Home.featured blogs)
  ∧ (∀ b, b ∈ blogs → BlogRecord.status b = Published →
       b ∈ Home.featured blogs
       ∨ ∀ f, f ∈ Home.featured blogs →
           (BlogRecord.likes b ≤ BlogRecord.likes f)%Z)
  ∧ ∀ n,
      filter (λ b, BlogRecord.likes b = n)
        (sort (λ a b, (BlogRecord.likes b - BlogRecord.likes a)%Z)
           (filter (λ b, BlogRecord.status b = Published) blogs))
      = filter (λ b, BlogRecord.likes b = n)
          (filter (λ b, BlogRecord.status b = Published) blogs).
Proof.
  unfold Home.featured.
  set (published := filter (λ b, BlogRecord.status b = Published) blogs).
  pose proof (sort_sorted published) as Hsorted.
  pose proof (sort_Permutation
                (λ a b, (BlogRecord.likes b - BlogRecord.likes a)%Z)
                published) as Hperm.
  set (sorted := sort _ published) in *.
  rewrite <- (take_drop 3 sorted) in Hsorted.
  split_and!.
  - by apply StronglySorted_app_1_l in Hsorted.
  - intros b Hb Hst.
    assert (Hin : b ∈ sorted).
    { rewrite Hperm. by apply list_elem_of_filter. }
    rewrite <- (take_drop 3 sorted) in Hin.
    apply elem_of_app in Hin as [Hin|Hin]; [by left|right].
    intros f Hf. by eapply (StronglySorted_app_1_elem_of _ _ _ _ _ Hsorted).
  - intros n. apply sort_stable.
Qed.

Lemma featured_most_liked_witness :
  let blog (i : string) (n : Z) :=
    BlogRecord.mkBlog i "" "" "" "" None [] [] "u" None Published None
      0%Z 0%Z n 0%Z 1%Z in
  let blogs := [blog "a" 1%Z; blog "b" 5%Z; blog "c" 3%Z; blog "d" 4%Z] in
  (blog "a" 1%Z ∈ blogs ∧ BlogRecord.status (blog "a" 1%Z) = Published)
  ∧ Home.featured blogs = [blog "b" 5%Z; blog "d" 4%Z; blog "c" 3%Z]
  ∧ (blog "a" 1%Z ∈ Home.featured blogs
     ∨ ∀ f, f ∈ Home.featured blogs → (1 ≤ BlogRecord.likes f)%Z).
Proof.
  intros blog blogs.
  assert (H1 : blog "a" 1%Z ∈ blogs) by (apply elem_of_cons; by left).
  split; [by split|]. split; [reflexivity|].
  exact (proj1 (proj2 (featured_most_liked blogs)) _ H1 eq_refl).
Defined.

(** ** The blog provider: likes and removal *)

Section Provider.

Import BlogRecord BlogProvider.

Lemma like_other blogId n (l : list Blog) :
  (∀ b, b ∈ l → id b ≠ blogId) →
  (λ blog, if String.eqb (id blog) blogId then with_likes blog n else blog)
    <$> l = l.
Proof.
  induction l as [|b l IH]; [done|]. intros Hl.
  rewrite fmap_cons, IH by (intros ? ?; apply Hl; by right).
  destruct (String.eqb_spec (id b) blogId) as [He|]; [|done].
  destruct (Hl b); [by left|done].
Qed.

Lemma captured_is_true captured blogId :
  captured_is captured blogId = true
  ↔ ∃ c, captured = Some c ∧ id c = blogId.
Proof.
  unfold captured_is. destruct captured as [c|].
  - destruct (String.eqb_spec (id c) blogId); split; try done.
    + intros _. by exists c.
    + intros (c' & [= <-] & ?). done.
  - split; [done|]. by intros (? & ? & _).
Qed.

Lemma captured_is_false captured blogId :
  captured_is captured blogId = false
  ↔ captured = None ∨ ∃ c, captured = Some c ∧ id c ≠ blogId.
Proof.
  unfold captured_is. destruct captured as [c|].
  - destruct (String.eqb_spec (id c) blogId); split; try done.
    + intros [|(c' & [= <-] & ?)]; done.
    + intros _. right. by exists c.
  - split; [by left|done].
Qed.

End Provider.

(** X19.  A successful like stores the returned like count in every blog of
    the list with that id; the blogs keep their number, order and ids, the
    blogs with another id are the same as before, and the comments are
    untouched.  The current blog is updated exactly when the current blog
    that the callback captured has the liked id, and then the blog that is
    current when the answer arrives takes the count, whatever its id.  When
    the current blog has not changed since the callback was built, list and
    detail page agree on the count of the liked blog and a current blog
    with another id is left alone.  Applying the same answer again changes
    nothing. *)
Theorem likeBlog_counts (captured : option BlogRecord.Blog)
    (st : BlogProvider.State) (blogId : string)
    (response : ApiResponse (bool * Z)) (liked : bool) (likeCount : Z) :
  success response = true →
  data response = Some (liked, likeCount) →
  let st' := BlogProvider.likeBlog captured st blogId response in
  BlogRecord.id <$> BlogProvider.blogs st'
    = BlogRecord.id <$> BlogProvider.blogs st
  ∧ (∀ b, b ∈ BlogProvider.blogs st' → BlogRecord.id b = blogId →
       BlogRecord.likes b = likeCount)
  ∧ (∀ i b, BlogRecord.id b ≠ blogId →
       BlogProvider.blogs st' !! i = Some b
       ↔ BlogProvider.blogs st !! i = Some b)
  ∧ BlogProvider.comments st' = BlogProvider.comments st
  ∧ (∀ c, captured = Some c → BlogRecord.id c = blogId →
       BlogProvider.currentBlog st'
       = (λ prev, BlogRecord.with_likes prev likeCount)
           <$> BlogProvider.currentBlog st)
  ∧ (captured = None ∨ (∃ c, captured = Some c ∧ BlogRecord.id c ≠ blogId) →
     BlogProvider.currentBlog st' = BlogProvider.currentBlog st)
  ∧ (captured = BlogProvider.currentBlog st →
     (∀ b, BlogProvider.currentBlog st' = Some b → BlogRecord.id b = blogId →
        BlogRecord.likes b = likeCount)
     ∧ (∀ b, BlogRecord.id b ≠ blogId →
          BlogProvider.currentBlog st' = Some b
          ↔ BlogProvider.currentBlog st = Some b))
  ∧ BlogProvider.likeBlog captured st' blogId response = st'.
Proof.
  intros Hs Hd. unfold BlogProvider.likeBlog. rewrite Hs, Hd. cbn.
  set (f := λ blog : BlogRecord.Blog,
         if String.eqb (BlogRecord.id blog) blogId
         then BlogRecord.with_likes blog likeCount else blog).
  assert (Hid : ∀ b, BlogRecord.id (f b) = BlogRecord.id b).
  { intros b. unfold f. by destruct (String.eqb _ _). }
  assert (Hlikes : ∀ b, BlogRecord.id (f b) = blogId →
                        BlogRecord.likes (f b) = likeCount).
  { intros b. unfold f.
    destruct (String.eqb_spec (BlogRecord.id b) blogId); [done|].
    by intros ?. }
  assert (Hother : ∀ b b', BlogRecord.id b' ≠ blogId → f b = b' ↔ b = b').
  { intros b b' Hb'. unfold f.
    destruct (String.eqb_spec (BlogRecord.id b) blogId) as [He|Hne]; [|done].
    split; intros <-; [by destruct Hb'|by destruct Hb']. }
  assert (Hff : ∀ b, f (f b) = f b).
  { intros b. unfold f.
    destruct (String.eqb_spec (BlogRecord.id b) blogId) as [He|Hne].
    - simpl. destruct (String.eqb_spec (BlogRecord.id b) blogId); done.
    - by destruct (String.eqb_spec (BlogRecord.id b) blogId). }
  split_and!.
  - rewrite <- list_fmap_compose. apply list_fmap_ext. intros ? b _. apply Hid.
  - intros b Hb. apply list_elem_of_fmap in Hb as (b0 & -> & _). apply Hlikes.
  - intros i b Hb. rewrite list_lookup_fmap.
    destruct (BlogProvider.blogs st !! i) as [b0|]; simpl; [|done].
    split; intros [= Hx]; f_equal; by apply (Hother b0 b Hb).
  - done.
  - intros c -> Hc.
    assert (Hcap : BlogProvider.captured_is (Some c) blogId = true).
    { apply captured_is_true. by exists c. }
    rewrite Hcap. by destruct (BlogProvider.currentBlog st).
  - intros Hcap. apply captured_is_false in Hcap. by rewrite Hcap.
  - intros ->. destruct (BlogProvider.currentBlog st) as [c|]; [|done].
    simpl. destruct (String.eqb_spec (BlogRecord.id c) blogId) as [He|Hne].
    + split.
      * by intros b [= <-] _.
      * intros b Hb. split; intros [= <-]; by destruct Hb.
    + split; [|done]. intros b [= <-] Hb. by destruct Hne.
  - f_equal.
    + rewrite <- list_fmap_compose. apply list_fmap_ext. intros ? b _.
      apply Hff.
    + destruct (BlogProvider.captured_is captured blogId); [|done].
      by destruct (BlogProvider.currentBlog st).
Qed.

Lemma likeBlog_counts_witness :
  let blog (i : string) (n : Z) :=
    BlogRecord.mkBlog i "" "" "" "" None [] [] "u" None Published None
      0%Z 0%Z n 0%Z 1%Z in
  let response := mkResponse true (Some (true, 6%Z)) None None in
  let st := BlogProvider.mkState [blog "a" 1%Z; blog "b" 5%Z]
              (Some (blog "b" 5%Z)) [] in
  let moved := BlogProvider.mkState [blog "a" 1%Z; blog "b" 5%Z]
                 (Some (blog "a" 1%Z)) [] in
  BlogProvider.likeBlog (Some (blog "b" 5%Z)) st "b" response
    = BlogProvider.mkState [blog "a" 1%Z; blog "b" 6%Z]
        (Some (blog "b" 6%Z)) []
  ∧ BlogProvider.likeBlog (Some (blog "b" 5%Z)) moved "b" response
    = BlogProvider.mkState [blog "a" 1%Z; blog "b" 6%Z]
        (Some (blog "a" 6%Z)) []
  ∧ BlogProvider.currentBlog
      (BlogProvider.likeBlog (Some (blog "b" 5%Z)) moved "b" response)
    = (λ prev, BlogRecord.with_likes prev 6%Z)
        <$> BlogProvider.currentBlog moved.
Proof.
  intros blog response st moved. split; [reflexivity|]. split; [reflexivity|].
  exact (proj1 (proj2 (proj2 (proj2 (proj2
           (likeBlog_counts (Some (blog "b" 5%Z)) moved "b" response
              true 6%Z eq_refl eq_refl)))))
           (blog "b" 5%Z) eq_refl eq_refl).
Defined.

(** X20.  After a successful removal no blog of the list has the removed
    id, and the blogs with other ids stay, in their order; the comments are
    untouched.  The current blog is cleared exactly when the current blog
    that the callback captured has the removed id, whatever blog is current
    when the answer arrives.  When the current blog has not changed since
    the callback was built, the current blog afterwards, if any, has
    another id, and a current blog with another id stays.  A later like of
    the removed id leaves the list as it is, and removing again changes
    nothing. *)
Theorem removeBlog_gone (captured : option BlogRecord.Blog)
    (st : BlogProvider.State) (blogId : string)
    (response : ApiResponse unit) :
  success response = true →
  let st' := BlogProvider.removeBlog captured st blogId response in
  (∀ b, b ∈ BlogProvider.blogs st' → BlogRecord.id b ≠ blogId)
  ∧ BlogProvider.blogs st' `sublist_of` BlogProvider.blogs st
  ∧ (∀ b, BlogRecord.id b ≠ blogId →
       b ∈ BlogProvider.blogs st' ↔ b ∈ BlogProvider.blogs st)
  ∧ BlogProvider.comments st' = BlogProvider.comments st
  ∧ (∀ c, captured = Some c → BlogRecord.id c = blogId →
       BlogProvider.currentBlog st' = None)
  ∧ (captured = None ∨ (∃ c, captured = Some c ∧ BlogRecord.id c ≠ blogId) →
     BlogProvider.currentBlog st' = BlogProvider.currentBlog st)
  ∧ (captured = BlogProvider.currentBlog st →
     (∀ b, BlogProvider.currentBlog st' = Some b → BlogRecord.id b ≠ blogId)
     ∧ (∀ b, BlogRecord.id b ≠ blogId →
          BlogProvider.currentBlog st' = Some b
          ↔ BlogProvider.currentBlog st = Some b))
  ∧ (∀ c r,
       BlogProvider.blogs (BlogProvider.likeBlog c st' blogId r)
       = BlogProvider.blogs st')
  ∧ BlogProvider.removeBlog captured st' blogId response = st'.
Proof.
  intros Hs. unfold BlogProvider.removeBlog. rewrite Hs. cbn.
  set (l' := filter (λ blog, BlogRecord.id blog ≠ blogId)
               (BlogProvider.blogs st)).
  assert (Hl' : ∀ b, b ∈ l' → BlogRecord.id b ≠ blogId).
  { intros b Hb. by apply list_elem_of_filter in Hb as [? _]. }
  split_and!; try done.
  - apply sublist_filter.
  - intros b Hb. unfold l'. rewrite list_elem_of_filter. tauto.
  - intros c -> Hc.
    assert (Hcap : BlogProvider.captured_is (Some c) blogId = true).
    { apply captured_is_true. by exists c. }
    by rewrite Hcap.
  - intros Hcap. apply captured_is_false in Hcap. by rewrite Hcap.
  - intros ->. destruct (BlogProvider.currentBlog st) as [c|]; [|done].
    simpl. destruct (String.eqb_spec (BlogRecord.id c) blogId) as [He|Hne].
    + split; [done|]. intros b Hb. split; [done|]. intros [= <-]. done.
    + split; [|done]. by intros b [= <-].
  - intros c r. unfold BlogProvider.likeBlog.
    destruct (success r); [|done]. destruct (data r) as [[? n]|]; [|done].
    cbn. by apply like_other.
  - f_equal.
    + unfold l'. apply list_filter_filter_l. by intros b Hb.
    + by destruct (BlogProvider.captured_is captured blogId).
Qed.

Lemma removeBlog_gone_witness :
  let blog (i : string) (n : Z) :=
    BlogRecord.mkBlog i "" "" "" "" None [] [] "u" None Published None
      0%Z 0%Z n 0%Z 1%Z in
  let response := mkResponse true None None None in
  let st := BlogProvider.mkState [blog "a" 1%Z; blog "b" 5%Z; blog "c" 2%Z]
              (Some (blog "b" 5%Z)) [] in
  let moved := BlogProvider.mkState [blog "a" 1%Z; blog "b" 5%Z; blog "c" 2%Z]
                 (Some (blog "a" 1%Z)) [] in
  BlogProvider.removeBlog (Some (blog "b" 5%Z)) st "b" response
    = BlogProvider.mkState [blog "a" 1%Z; blog "c" 2%Z] None []
  ∧ BlogProvider.removeBlog (Some (blog "b" 5%Z)) moved "b" response
    = BlogProvider.mkState [blog "a" 1%Z; blog "c" 2%Z] None []
  ∧ ∀ b, b ∈ BlogProvider.blogs
               (BlogProvider.removeBlog (Some (blog "b" 5%Z)) st "b" response)
         → BlogRecord.id b ≠ "b".
Proof.
  intros blog response st moved. split; [reflexivity|]. split; [reflexivity|].
  exact (proj1 (removeBlog_gone (Some (blog "b" 5%Z)) st "b" response
                  eq_refl)).
Defined.

(** ** Initials *)

Lemma split_nonempty sep s : split sep s ≠ [].
Proof.
  destruct s as [|c s]; simpl; [done|].
  destruct (Ascii.eqb c sep); [done|]. by destruct (split sep s).
Qed.

Lemma split_sep sep a b :
  split sep (a ++ String sep b) = split sep a ++ split sep b.
Proof.
  induction a as [|c a IH]; simpl.
  - by rewrite Ascii.eqb_refl.
  - destruct (Ascii.eqb c sep); [by rewrite IH|]. rewrite IH.
    pose proof (split_nonempty sep a). by destruct (split sep a).
Qed.

Lemma append_cons x (a b : string) :
  (String x a ++ b)%string = String x (a ++ b)%string.
Proof. reflexivity. Qed.

Lemma append_nil (b : string) : (EmptyString ++ b)%string = b.
Proof. reflexivity. Qed.

Lemma string_app_assoc (a b c : string) : (a ++ (b ++ c) = (a ++ b) ++ c)%string.
Proof.
  induction a as [|x a IH]; [done|]. by rewrite !append_cons, IH.
Qed.

Lemma join_app l1 l2 : join (l1 ++ l2) = (join l1 ++ join l2)%string.
Proof.
  induction l1 as [|p l1 IH]; simpl; [done|].
  by rewrite IH, string_app_assoc.
Qed.

Lemma toUpperCase_app a b :
  toUpperCase (a ++ b) = (toUpperCase a ++ toUpperCase b)%string.
Proof.
  induction a as [|x a IH]; [done|]. rewrite append_cons. simpl.
  by rewrite ?append_cons, ?IH.
Qed.

Lemma toUpperCase_length s : String.length (toUpperCase s) = String.length s.
Proof. induction s as [|x s IH]; simpl; [done|]. by rewrite IH. Qed.

Lemma string_app_length (a b : string) :
  String.length (a ++ b) = String.length a + String.length b.
Proof.
  induction a as [|x a IH]; [done|]. rewrite append_cons. simpl.
  by rewrite ?append_cons, ?IH.
Qed.

Lemma join_first_length l :
  String.length (join (first_char <$> l))
  = length (filter (λ w, w ≠ EmptyString) l).
Proof.
  induction l as [|w l IH]; [done|].
  rewrite fmap_cons, filter_cons. simpl. rewrite string_app_length, IH.
  by destruct w.
Qed.

Lemma upper_char_not_lower c :
  Ascii.nat_of_ascii c < 128 →
  ¬ (97 ≤ Ascii.nat_of_ascii (upper_char c) ≤ 122).
Proof.
  intros Hc. unfold upper_char.
  destruct (Nat.leb_spec 97 (Ascii.nat_of_ascii c)) as [H1|H1]; simpl.
  - destruct (Nat.leb_spec (Ascii.nat_of_ascii c) 122) as [H2|H2]; [|lia].
    rewrite Ascii.nat_ascii_embedding by lia. lia.
  - lia.
Qed.

Lemma is_ascii_join_first l :
  Forall is_ascii l → is_ascii (join (first_char <$> l)).
Proof.
  unfold is_ascii. induction 1 as [|w l Hw _ IH]; [constructor|].
  rewrite fmap_cons. simpl. destruct w as [|c w]; simpl; [done|].
  constructor; [|done]. by apply Forall_cons in Hw as [? _].
Qed.

Lemma is_ascii_split sep s : is_ascii s → Forall is_ascii (split sep s).
Proof.
  unfold is_ascii. induction s as [|c s IH]; simpl.
  - intros _. by repeat constructor.
  - intros [Hc Hs]%Forall_cons. specialize (IH Hs).
    destruct (Ascii.eqb c sep); [constructor; [constructor|done]|].
    destruct (split sep s) as [|p ps];
      [constructor; [simpl; constructor; [exact Hc|constructor]|constructor]|].
    apply Forall_cons in IH as [Hp Hps]. constructor; [|done].
    simpl. by constructor.
Qed.

(** X21.  For a name of ASCII characters the initials have one character
    for each non-empty word between single spaces, none of them a lowercase
    letter; the initials of two names joined by a space are the initials
    of the first followed by those of the second, and the initials of a
    name without a space are its first character in upper case (nothing
    for the empty name). *)
Theorem getInitials_words (name : string) :
  is_ascii name →
  String.length (getInitials name)
    = length (filter (λ w, w ≠ EmptyString) (split space name))
  ∧ Forall (λ c, ¬ (97 ≤ Ascii.nat_of_ascii c ≤ 122))
      (String.list_ascii_of_string (getInitials name))
  ∧ (∀ a b, name = (a ++ String space b)%string →
       getInitials name = (getInitials a ++ getInitials b)%string)
  ∧ (has_char space name = false →
       getInitials name = toUpperCase (first_char name)).
Proof.
  intros Hascii. unfold getInitials. split_and!.
  - by rewrite toUpperCase_length, join_first_length.
  - pose proof (is_ascii_join_first _ (is_ascii_split space _ Hascii)) as Hj.
    revert Hj. generalize (join (first_char <$> split space name)).
    unfold is_ascii. induction s as [|c s IH]; simpl; [constructor|].
    intros [Hc Hs]%Forall_cons. constructor; [|by apply IH].
    by apply upper_char_not_lower.
  - intros a b ->.
    by rewrite split_sep, fmap_app, join_app, toUpperCase_app.
  - intros Hsp. rewrite split_no_sep by done. by destruct name.
Qed.

Lemma getInitials_words_witness :
  is_ascii "ada  lovelace"
  ∧ getInitials "ada  lovelace" = "AL"
  ∧ String.length (getInitials "ada  lovelace")
    = length (filter (λ w, w ≠ EmptyString) (split space "ada  lovelace")).
Proof.
  assert (H : is_ascii "ada  lovelace").
  { unfold is_ascii. simpl. repeat constructor. }
  split; [exact H|]. split; [reflexivity|].
  exact (proj1 (getInitials_words "ada  lovelace" H)).
Defined.

(** ** The home page: statistics *)

Section Stats.

Import BlogRecord.

Lemma totalViews_acc (l : list Blog) (acc : Z) :
  fold_left (λ sum blog, (sum + views blog)%Z) l acc
  = (acc + foldr (λ blog sum, (views blog + sum)%Z) 0%Z l)%Z.
Proof.
  revert acc. induction l as [|b l IH]; intros acc; simpl; [lia|].
  rewrite IH. lia.
Qed.

Lemma totalViews_sum (l : list Blog) :
  Home.totalViews l = foldr Z.add 0%Z (views <$> l).
Proof.
  unfold Home.totalViews. rewrite totalViews_acc.
  induction l as [|b l IH]; [done|]. rewrite fmap_cons. simpl in *. lia.
Qed.

Lemma foldr_add_Permutation (l l' : list Z) :
  l ≡ₚ l' → foldr Z.add 0%Z l = foldr Z.add 0%Z l'.
Proof. induction 1; simpl; lia. Qed.

Lemma totalBlogs_status (l l' : list Blog) :
  status <$> l = status <$> l' → Home.totalBlogs l = Home.totalBlogs l'.
Proof.
  unfold Home.totalBlogs. revert l'.
  induction l as [|b l IH]; intros [|b' l']; try done.
  rewrite !fmap_cons. intros [= Hb Hl]. rewrite !filter_cons.
  specialize (IH _ Hl).
  destruct (decide (status b = Published)), (decide (status b' = Published));
    simpl; congruence.
Qed.

Lemma activeWriters_distinct (l : list Blog) :
  Home.activeWriters l = length (remove_dups (authorId <$> l)).
Proof.
  unfold Home.activeWriters.
  rewrite <- (size_list_to_set (C := gset string) (remove_dups _))
    by apply NoDup_remove_dups.
  f_equal. apply set_eq. intros x.
  by rewrite !elem_of_list_to_set, elem_of_remove_dups.
Qed.

Lemma remove_dups_length {A} `{EqDecision A} (l : list A) :
  length (remove_dups l) ≤ length l.
Proof.
  induction l as [|x l IH]; simpl; [done|].
  destruct (decide_rel _ x l); simpl; lia.
Qed.

End Stats.

(** X22.  The figures of the statistics row are not changed by a like and
    do not depend on the order of the blogs: the number of published blogs
    and the number of distinct author ids among all blogs of the list
    (drafts included) always, and the sum of the views when the views are
    integers that are not negative and whose total the numbers of the
    language hold exactly.  Neither count exceeds the number of blogs. *)
Theorem home_stats_stable (captured : option BlogRecord.Blog)
    (st : BlogProvider.State) (blogId : string)
    (response : ApiResponse (bool * Z)) (blogs' : list BlogRecord.Blog) :
  blogs'
  ≡ₚ BlogProvider.blogs (BlogProvider.likeBlog captured st blogId response) →
  Home.totalBlogs blogs' = Home.totalBlogs (BlogProvider.blogs st)
  ∧ Home.activeWriters blogs' = Home.activeWriters (BlogProvider.blogs st)
  ∧ (Forall (λ b, (0 ≤ BlogRecord.views b)%Z) (BlogProvider.blogs st) →
     exact_integer (Home.totalViews (BlogProvider.blogs st)) →
     Home.totalViews blogs' = Home.totalViews (BlogProvider.blogs st)
     ∧ Forall (λ b, (0 ≤ BlogRecord.views b)%Z) blogs')
  ∧ Home.activeWriters blogs'
    = length (remove_dups (BlogRecord.authorId <$> blogs'))
  ∧ Home.totalBlogs blogs' ≤ length blogs'
  ∧ Home.activeWriters blogs' ≤ length blogs'.
Proof.
  intros Hperm.
  set (liked := BlogProvider.blogs
                  (BlogProvider.likeBlog captured st blogId response)) in *.
  assert (Hfields :
    BlogRecord.status <$> liked = BlogRecord.status <$> BlogProvider.blogs st
    ∧ BlogRecord.authorId <$> liked
      = BlogRecord.authorId <$> BlogProvider.blogs st
    ∧ BlogRecord.views <$> liked = BlogRecord.views <$> BlogProvider.blogs st).
  { unfold liked, BlogProvider.likeBlog.
    destruct (success response); [|done].
    destruct (data response) as [[? n]|]; [|done]. cbn.
    rewrite <- !list_fmap_compose.
    split_and!; apply list_fmap_ext; intros ? x _; simpl;
      by destruct (String.eqb _ _). }
  destruct Hfields as (Hst & Hau & Hvi).
  split_and!.
  - rewrite <- (totalBlogs_status _ _ Hst). unfold Home.totalBlogs.
    by rewrite Hperm.
  - unfold Home.activeWriters. rewrite <- Hau.
    by rewrite (list_to_set_perm_L (C := gset string) _ _
                  (fmap_Permutation BlogRecord.authorId _ _ Hperm)).
  - intros Hpos _. split.
    + rewrite !totalViews_sum, <- Hvi.
      apply foldr_add_Permutation. by apply fmap_Permutation.
    + apply Forall_forall. intros b Hb. rewrite Hperm in Hb.
      assert (Hin : BlogRecord.views b ∈ BlogRecord.views <$> liked)
        by by apply list_elem_of_fmap_2.
      rewrite Hvi in Hin. apply list_elem_of_fmap in Hin as (b0 & Heq & Hb0).
      rewrite Heq. by apply (proj1 (Forall_forall _ _) Hpos).
  - apply activeWriters_distinct.
  - apply length_filter.
  - rewrite activeWriters_distinct.
    etransitivity; [apply remove_dups_length|]. by rewrite length_fmap.
Qed.

Lemma home_stats_stable_witness :
  let blog (i a : string) (s : BlogStatus) (v : Z) :=
    BlogRecord.mkBlog i "" "" "" "" None [] [] a None s None
      0%Z 0%Z 0%Z v 1%Z in
  let b1 := blog "1" "ann" Published 10%Z in
  let b2 := blog "2" "bob" Draft 5%Z in
  let b3 := blog "3" "ann" Published 7%Z in
  let st := BlogProvider.mkState [b1; b2; b3] None [] in
  let response := mkResponse true (Some (true, 4%Z)) None None in
  let blogs' := [b3; BlogRecord.with_likes b2 4%Z; b1] in
  (blogs' ≡ₚ BlogProvider.blogs (BlogProvider.likeBlog None st "2" response)
   ∧ Forall (λ b, (0 ≤ BlogRecord.views b)%Z) (BlogProvider.blogs st)
   ∧ exact_integer (Home.totalViews (BlogProvider.blogs st)))
  ∧ Home.totalBlogs blogs' = 2
  ∧ Home.totalBlogs blogs' = Home.totalBlogs (BlogProvider.blogs st)
  ∧ Home.totalViews blogs' = 22%Z
  ∧ Home.totalViews blogs' = Home.totalViews (BlogProvider.blogs st).
Proof.
  intros blog b1 b2 b3 st response blogs'.
  assert (H : blogs' ≡ₚ BlogProvider.blogs
                          (BlogProvider.likeBlog None st "2" response)).
  { change ([b3; BlogRecord.with_likes b2 4%Z; b1]
            ≡ₚ [b1; BlogRecord.with_likes b2 4%Z; b3]).
    transitivity [b3; b1; BlogRecord.with_likes b2 4%Z];
      [apply Permutation_skip, Permutation_swap|].
    transitivity [b1; b3; BlogRecord.with_likes b2 4%Z];
      [apply Permutation_swap|].
    apply Permutation_skip, Permutation_swap. }
  assert (Hpos : Forall (λ b, (0 ≤ BlogRecord.views b)%Z)
                   (BlogProvider.blogs st)).
  { repeat constructor; simpl; lia. }
  assert (Hex : exact_integer (Home.totalViews (BlogProvider.blogs st))).
  { unfold exact_integer. change (2 ^ 53)%Z with 9007199254740992%Z.
    change (Home.totalViews (BlogProvider.blogs st)) with 22%Z. lia. }
  split; [done|]. split; [reflexivity|].
  pose proof (home_stats_stable None st "2" response blogs' H)
    as (Htb & _ & Hviews & _).
  split; [exact Htb|]. split; [reflexivity|].
  exact (proj1 (Hviews Hpos Hex)).
Defined.

(** ** The tags of the blog editor *)

Lemma elem_of_without xs x y : y ∈ without xs x ↔ y ∈ xs ∧ y ≠ x.
Proof.
  unfold without. rewrite !list_elem_of_In, filter_In.
  destruct (String.eqb_spec y x); simpl; intuition congruence.
Qed.

Lemma editor_step_NoDup trim lower st e :
  NoDup (BlogEditor.tags st) →
  NoDup (BlogEditor.tags (BlogEditor.step trim lower st e)).
Proof.
  intros Hnd. destruct e as [v| |t]; simpl; [done| |by apply without_NoDup].
  unfold BlogEditor.handleAddTag.
  destruct (truthy_string _); [|done]. simpl.
  destruct (includes _ _) eqn:Hinc; [done|]. simpl.
  apply includes_false in Hinc.
  apply NoDup_app. split_and!; [done| |apply NoDup_singleton].
  intros x Hx ->%list_elem_of_singleton. done.
Qed.

(** Where the tags of a state come from: the tags at the start, or a typed
    value that is not blank, trimmed and in lower case. *)
Lemma editor_run_origin trim lower es :
  trim EmptyString = EmptyString → ∀ st t,
  t ∈ BlogEditor.tags (BlogEditor.run trim lower st es) →
  t ∈ BlogEditor.tags st
  ∨ t = lower (trim (BlogEditor.newTag st))
      ∧ trim (BlogEditor.newTag st) ≠ EmptyString
  ∨ ∃ v, BlogEditor.TypeTag v ∈ es ∧ trim v ≠ EmptyString
         ∧ t = lower (trim v).
Proof.
  intros Htrim. induction es as [|e es IH]; intros st t; [by left|].
  change (BlogEditor.run trim lower st (e :: es))
    with (BlogEditor.run trim lower (BlogEditor.step trim lower st e) es).
  intros H%IH. destruct H as [Ht | [ [ -> Hne ] | (v & Hv & Hne & ->)]].
  - destruct e as [v| |x]; simpl in Ht.
    + by left.
    + unfold BlogEditor.handleAddTag in Ht.
      destruct (truthy_string _) eqn:Htr; [|by left]. simpl in Ht.
      destruct (includes _ _); [by left|]. simpl in Ht.
      apply elem_of_app in Ht as [Ht | ->%list_elem_of_singleton]; [by left|].
      right; left. split; [done|].
      intros Hempty. rewrite Hempty in Htr. done.
    + apply elem_of_without in Ht as [Ht _]. by left.
  - destruct e as [v| |x]; simpl in *.
    + right; right. exists v. split_and!; [by left|done..].
    + unfold BlogEditor.handleAddTag in *.
      destruct (truthy_string _ && _); [|by right; left].
      simpl in Hne. by rewrite Htrim in Hne.
    + by right; left.
  - right; right. exists v. split_and!; [by right|done..].
Qed.

(** X23.  In the blog editor, from a tag list without duplicates every
    sequence of typing, adding and removing tags leaves a list without
    duplicates; a tag removed last is no longer in the list; and when the
    input starts empty, every tag of the list was there at the start or is
    a typed value that is not blank, trimmed and in lower case (given that
    trimming the empty string gives the empty string). *)
Theorem editor_tags_NoDup (trim toLowerCase : string → string)
    (st : BlogEditor.State) (es : list BlogEditor.Event) :
  NoDup (BlogEditor.tags st) →
  NoDup (BlogEditor.tags (BlogEditor.run trim toLowerCase st es))
  ∧ (∀ t, (t ∉ BlogEditor.tags
             (BlogEditor.run trim toLowerCase st
                (es ++ [BlogEditor.RemoveTag t]))))
  ∧ (trim EmptyString = EmptyString →
     trim (BlogEditor.newTag st) = EmptyString →
     ∀ t, t ∈ BlogEditor.tags (BlogEditor.run trim toLowerCase st es) →
          t ∈ BlogEditor.tags st
          ∨ ∃ v, BlogEditor.TypeTag v ∈ es ∧ trim v ≠ EmptyString
                 ∧ t = toLowerCase (trim v)).
Proof.
  intros Hnd. split_and!.
  - revert st Hnd. induction es as [|e es IH]; intros st Hnd; [done|].
    apply IH. by apply editor_step_NoDup.
  - intros t. unfold BlogEditor.run. rewrite fold_left_app. simpl.
    apply without_not_in.
  - intros Htrim Hempty t H%editor_run_origin; [|done].
    destruct H as [Ht | [[_ Hne] | Hv]]; [by left|done|by right].
Qed.

Lemma editor_tags_NoDup_witness :
  let st := BlogEditor.mkState ["rocq"] "" in
  let es := [BlogEditor.TypeTag "Rocq"; BlogEditor.AddTag;
             BlogEditor.TypeTag "Proofs"; BlogEditor.AddTag;
             BlogEditor.TypeTag "proofs"; BlogEditor.AddTag] in
  let lower (s : string) :=
    String.string_of_list_ascii
      ((λ c, let n := Ascii.nat_of_ascii c in
             if (65 <=? n) && (n <=? 90) then Ascii.ascii_of_nat (n + 32)
             else c) <$> String.list_ascii_of_string s) in
  NoDup (BlogEditor.tags st)
  ∧ BlogEditor.tags (BlogEditor.run (λ s, s) lower st es) = ["rocq"; "proofs"]
  ∧ NoDup (BlogEditor.tags (BlogEditor.run (λ s, s) lower st es)).
Proof.
  intros st es lower.
  assert (H : NoDup (BlogEditor.tags st)) by apply NoDup_singleton.
  split; [exact H|]. split; [reflexivity|].
  exact (proj1 (editor_tags_NoDup (λ s, s) lower st es H)).
Defined.
